(** * Revengate: maps and movement (revengate/maps.py)

    A shallow embedding of the dungeon map of Revengate: the tile grid, the
    occupancy indices, the spatial queries (rings, line of sight), the two
    path finders (A* and the Dijkstra-style distance metrics), the links
    between maps, pickling, and the recursive-backtracker maze filler.

    Conventions.
    - Coordinates are pairs of integers [(x, y)], origin at the bottom left.
    - A Python [dict] is a [gmap], a Python [set] a [gset].
    - A Python exception is a value of [exn]; a function that can raise
      returns a [result].  When a function raises, the model does not say
      in which state it leaves the objects it was working on.
    - A Python loop that is not bounded by a list runs on fuel in the
      model; the outcome is then an [option], [None] meaning that the fuel
      ran out, and the properties show that it does not. *)

From Stdlib Require Import ZArith List Lia Permutation QArith Qround.
From stdpp Require Import functions gmap strings list.

#[local] Open Scope Z_scope.
#[local] Set Warnings "-clear-no-such-hyp".

(** * The model

    The data and the operations of [maps.py], and the notions in which
    their properties are stated. *)

(** ** Exceptions *)

(** The exceptions raised by the code of [maps.py], one constructor per
    [raise] site (or per kind of failing built-in). *)
Inductive exn : Type :=
  | AlreadyOnMap      (* place: "... is already on the map, use Map.move()" *)
  | Conflict          (* place: "There is already an actor at ..." *)
  | MapFull           (* place: "The map appears to be full!" *)
  | UnsupportedKind   (* place: "Unsupported type for placing ..." *)
  | NotPresent        (* remove, move: "... is not on the current map." *)
  | NotAConnector     (* connect: "Connecting maps must be done at Connector tiles." *)
  | HeroNotRestored   (* __setstate__: "tender.hero must be restored before ..." *)
  | IndexError        (* array access out of range, pop from an empty heap *)
  | KeyError          (* dict lookup or del of a missing key *)
  | StopIteration     (* next() on an exhausted generator *)
  | AttributeError    (* attribute missing on an object *)
  | NotInStack        (* removing an item that its stack does not hold *)
  | EmptyRange.       (* rng.randrange over an empty range *)

(** The Python class of each exception. *)
Inductive pyclass : Type :=
  PyValueError | PyRuntimeError | PyTypeError | PyIndexError | PyKeyError
  | PyStopIteration | PyAttributeError.

Definition exn_class (e : exn) : pyclass :=
  match e with
  | AlreadyOnMap | Conflict | UnsupportedKind | NotPresent => PyValueError
  | NotInStack | EmptyRange => PyValueError
  | MapFull | HeroNotRestored => PyRuntimeError
  | NotAConnector => PyTypeError
  | IndexError => PyIndexError
  | KeyError => PyKeyError
  | StopIteration => PyStopIteration
  | AttributeError => PyAttributeError
  end.

Inductive result (A : Type) : Type :=
  | Ok (a : A)
  | Raise (e : exn).
Arguments Ok {A} a.
Arguments Raise {A} e.

#[global] Instance result_ret : MRet result := fun A a => Ok a.
#[global] Instance result_bind : MBind result := fun A B k r =>
  match r with
  | Ok a => k a
  | Raise e => Raise e
  end.

Definition of_option {A} (e : exn) (o : option A) : result A :=
  match o with
  | Some a => Ok a
  | None => Raise e
  end.

(** ** Tiles *)

Abbreviation pos := (Z * Z)%type.

Inductive TileType : Type :=
  | SOLID_ROCK | FLOOR | WALL | WALL_V | WALL_H | DOORWAY_OPEN | DOORWAY_CLOSED.

#[global] Instance TileType_eq_dec : EqDecision TileType.
Proof. solve_decision. Defined.

(** [class Connector]: a tile that connects to another map. *)
Record Connector : Type := mkConnector {
  char : string;
  dest_map : option string;
}.

(** A cell of the grid holds a [TileType] or a [Connector] object. *)
Inductive Tile : Type :=
  | Terrain (t : TileType)
  | Conn (c : Connector).

Definition isinstance_Connector (t : Tile) : bool :=
  match t with
  | Conn _ => true
  | Terrain _ => false
  end.

Definition WALKABLE : list TileType := [FLOOR; DOORWAY_OPEN].
Definition SEE_THROUGH : list TileType := [FLOOR; DOORWAY_OPEN].
Definition WALLS : list TileType := [WALL; WALL_H; WALL_V].

(** [tile in lst] for a list of tile types: a [Connector] object is equal
    to no [TileType]. *)
Definition tile_in (t : Tile) (lst : list TileType) : bool :=
  match t with
  | Terrain ty => bool_decide (ty ∈ lst)
  | Conn _ => false
  end.

(** Modelled from the spec: [utils.Array] is not part of the sources at
    hand.  A grid is a width x height array of tiles, 0-indexed from the
    bottom left and addressed as [tiles[x][y]]; here it is its two
    dimensions and the content of every cell.  Reading or writing outside
    [0 <= x < width], [0 <= y < height] is an [IndexError]. *)
Record Array : Type := mkArray {
  arr_width : Z;
  arr_height : Z;
  arr_cells : Z -> Z -> Tile;
}.

Definition in_range (a : Array) (x y : Z) : bool :=
  (0 <=? x) && (x <? arr_width a) && (0 <=? y) && (y <? arr_height a).

Definition arr_get (a : Array) (x y : Z) : result Tile :=
  if in_range a x y then Ok (arr_cells a x y) else Raise IndexError.

Definition arr_set (a : Array) (x y : Z) (t : Tile) : result Array :=
  if in_range a x y then
    Ok (mkArray (arr_width a) (arr_height a)
          (fun x' y' => if (x' =? x) && (y' =? y) then t else arr_cells a x' y'))
  else Raise IndexError.

(** [Array(width, height, fill)] *)
Definition arr_make (w h : Z) (fill : Tile) : Array :=
  mkArray w h (fun _ _ => fill).

(** ** Things that live on a map *)

(** Actors and items have no [__eq__] or [__hash__] of their own: as
    dictionary keys they are compared by identity.  Every actor carries a
    unique [id]; the model identifies an object with its identifier. *)
Abbreviation Actor := positive.
Abbreviation Item := positive.
Abbreviation Mood := positive.

Inductive Thing : Type :=
  | AnActor (a : Actor)
  | AnItem (i : Item)
  | AMood (d : Mood)
  | Other.

(** [actor.id] *)
Definition actor_id (a : Actor) : positive := a.

(** ** The map *)

(** [class Map].  [name] and [overlays], which none of the operations
    below reads, are left out.  [tiles] is the array that [Builder.init]
    sets; a map that has none yet ([tiles = None], of size [(0, 0)]) is a
    map with an array of no width and no height. *)
Record Map : Type := mkMap {
  id : string;
  tiles : Array;
  _id_to_a : gmap positive Actor;      (* actor.id to actor *)
  _a_to_pos : gmap Actor pos;          (* actor to position *)
  _pos_to_a : gmap pos Actor;          (* position to actor *)
  _i_to_pos : gmap Item pos;           (* item to position *)
  _pos_to_i : gmap pos (list Item);    (* position to the stack of items *)
  _pos_to_m : gmap pos Mood;           (* position to mood *)
  _map_to_conn : gmap string pos;      (* map id to our side of the link *)
}.

(** [Map.__getitem__] and [Map.__setitem__] *)
Definition getitem (m : Map) (p : pos) : result Tile :=
  let '(x, y) := p in arr_get (tiles m) x y.

Definition set_tiles (m : Map) (a : Array) : Map :=
  mkMap (id m) a (_id_to_a m) (_a_to_pos m) (_pos_to_a m) (_i_to_pos m)
        (_pos_to_i m) (_pos_to_m m) (_map_to_conn m).

Definition setitem (m : Map) (p : pos) (t : Tile) : result Map :=
  let '(x, y) := p in
  a ← arr_set (tiles m) x y t;
  Ok (set_tiles m a).

(** [Map.size] *)
Definition size (m : Map) : Z * Z := (arr_width (tiles m), arr_height (tiles m)).

(** [Map.rect] *)
Definition rect (m : Map) : pos * pos :=
  let '(w, h) := size m in ((0, 0), (w - 1, h - 1)).

(** [Map.is_in_map] *)
Definition is_in_map (m : Map) (p : pos) : bool :=
  let '(w, h) := size m in
  let '(x, y) := p in
  (0 <=? x) && (x <? w) && (0 <=? y) && (y <? h).

(** [Map.distance]: the grid distance, with diagonal moves allowed. *)
Definition distance (pos1 pos2 : pos) : Z :=
  let '(x1, y1) := pos1 in
  let '(x2, y2) := pos2 in
  Z.max (Z.abs (x1 - x2)) (Z.abs (y1 - y2)).

(** [Map.is_walkable], with the array access as the code performs it. *)
Definition is_walkable (m : Map) (p : pos) : result bool :=
  let '(w, h) := size m in
  let '(x, y) := p in
  if negb ((0 <=? x) && (x <? w) && (0 <=? y) && (y <? h)) then Ok false
  else
    tile ← getitem m p;
    Ok (isinstance_Connector tile || tile_in tile WALKABLE).

(** [Map.is_free]: [and] evaluates its right operand only when the left one
    is true. *)
Definition is_free (m : Map) (p : pos) : result bool :=
  walkable ← is_walkable m p;
  if walkable && bool_decide (_pos_to_a m !! p = None) then Ok true
  else Ok false.

(** [is_walkable] and [is_free] never raise (see [is_walkable_total] and
    [is_free_total] below); the callers use their values. *)
Definition walkable (m : Map) (p : pos) : bool :=
  is_in_map m p &&
  (let t := arr_cells (tiles m) p.1 p.2 in
   isinstance_Connector t || tile_in t WALKABLE).

Definition free (m : Map) (p : pos) : bool :=
  walkable m p && bool_decide (_pos_to_a m !! p = None).

(** ** Positions outside the map *)

Definition out_of_bounds (m : Map) (p : pos) : Prop :=
  p.1 < 0 \/ arr_width (tiles m) <= p.1 \/ p.2 < 0 \/ arr_height (tiles m) <= p.2.

(** ** Rings *)

(** Python's [range(a, b)] and [range(a, b, -1)]. *)
Definition range (a b : Z) : list Z := seqZ a (b - a).
Definition range_down (a b : Z) : list Z := (fun i => a - i) <$> seqZ 0 (a - b).

(** The raw coordinates of [Map._ring], in the order of the four [for]
    loops: bottom edge, right edge, top edge, left edge. *)
Definition ring_coords (center : pos) (radius : Z) : list pos :=
  let '(x, y) := center in
  let r := radius in
  ((fun i => (x + i, y - r)) <$> range (- r) (r + 1)) ++
  ((fun j => (x + r, y + j)) <$> range (- r + 1) (r + 1)) ++
  ((fun i => (x + i, y + r)) <$> range_down (r - 1) (- r - 1)) ++
  ((fun j => (x - r, y + j)) <$> range_down (r - 1) (- r)).

(** The inner [sift] of [Map._ring] with [sparse=True]. *)
Definition sift (pred : pos -> bool) (tiles : list pos) : list pos :=
  List.filter pred tiles.

(** [Map._ring] with [sparse=True].  [shuffle] is [None] for
    [shuffle=False]; for [shuffle=True] it is [Some s], with [s] the
    rearrangement that [rng.shuffle] applies on this call. *)
Definition _ring (m : Map) (center : pos) (radius : Z) (free_only : bool)
    (shuffle : option (list pos -> list pos))
    (filter_pred : option (pos -> bool)) (in_map : bool) : list pos :=
  let tiles := ring_coords center radius in
  let tiles := if in_map then sift (is_in_map m) tiles else tiles in
  let tiles := match shuffle with Some s => s tiles | None => tiles end in
  let tiles := match filter_pred with Some f => sift f tiles | None => tiles end in
  let tiles := if free_only then sift (free m) tiles else tiles in
  tiles.

(** [Map.adjacents] *)
Definition adjacents (m : Map) (p : pos) (free_only : bool)
    (shuffle : option (list pos -> list pos))
    (filter_pred : option (pos -> bool)) (in_map : bool) : list pos :=
  _ring m p 1 free_only shuffle filter_pred in_map.

(** The [k]-th coordinate of a ring, in closed form. *)
Definition ring_nth (center : pos) (r k : Z) : pos :=
  let '(x, y) := center in
  if k <=? 2 * r then (x - r + k, y - r)
  else if k <=? 4 * r then (x + r, y + k - 3 * r)
  else if k <=? 6 * r then (x + 5 * r - k, y + r)
  else (x - r, y + 7 * r - k).

(** The turn from [p] to [q] as seen from [c]: positive when [q] is
    counter-clockwise of [p] (the y axis points up). *)
Definition turn (c p q : pos) : Z :=
  (p.1 - c.1) * (q.2 - c.2) - (p.2 - c.2) * (q.1 - c.1).

(** The whole ring of the given radius lies inside the map. *)
Definition ring_inside (m : Map) (center : pos) (r : Z) : Prop :=
  0 <= center.1 - r /\ center.1 + r < arr_width (tiles m) /\
  0 <= center.2 - r /\ center.2 + r < arr_height (tiles m).

(** ** Line of sight *)

(** Python's [int()] on a real number: truncation towards zero. *)
Definition py_int (q : Q) : Z := if Qle_bool 0 q then Qfloor q else Qceiling q.

(** One coordinate of the [i]-th sample of [Map.line_of_sight]:
    [((mult-i)*c1 + i*c2) / mult] with [c1], [c2] moved to the centre of
    their tiles ([c + 0.5]).  The code computes it in binary floating
    point, where half-integers, their small multiples and sums are exact;
    the model uses the rationals. *)
Definition lerp (mult i c1 c2 : Z) : Q :=
  ((inject_Z (mult - i) * (inject_Z c1 + 0.5) + inject_Z i * (inject_Z c2 + 0.5))
   / inject_Z mult)%Q.

Definition los_sample (mult : Z) (pos1 pos2 : pos) (i : Z) : pos :=
  (py_int (lerp mult i pos1.1 pos2.1), py_int (lerp mult i pos1.2 pos2.2)).

(** The body of the [for] loop of [Map.line_of_sight], over the remaining
    values of [i]. *)
Fixpoint los_loop (m : Map) (mult : Z) (pos1 pos2 : pos) (todo : list Z)
    (steps : list pos) : result (option (list pos)) :=
  match todo with
  | [] => Ok (Some steps)
  | i :: todo' =>
      let '(x, y) := los_sample mult pos1 pos2 i in
      tile ← arr_get (tiles m) x y;
      if tile_in tile SEE_THROUGH
      then los_loop m mult pos1 pos2 todo' (steps ++ [(x, y)])
      else Ok None
  end.

(** [Map.line_of_sight] *)
Definition line_of_sight (m : Map) (pos1 pos2 : pos) : result (option (list pos)) :=
  let nb_steps := distance pos1 pos2 + 1 in
  let mult := Z.max 1 (nb_steps - 1) in
  los_loop m mult pos1 pos2 (range 0 nb_steps) [].

(** The tiles that [line_of_sight] samples, in order. *)
Definition los_samples (pos1 pos2 : pos) : list pos :=
  let nb_steps := distance pos1 pos2 + 1 in
  let mult := Z.max 1 (nb_steps - 1) in
  los_sample mult pos1 pos2 <$> range 0 nb_steps.

Definition tile_at (m : Map) (p : pos) : Tile := arr_cells (tiles m) p.1 p.2.

Definition see_through (m : Map) (p : pos) : bool :=
  tile_in (tile_at m p) SEE_THROUGH.

Definition is_wall (m : Map) (p : pos) : bool := tile_in (tile_at m p) WALLS.

(** A corridor of three tiles with solid rock in the middle. *)
Definition rock_corridor : Map :=
  mkMap "m"
    (mkArray 3 1 (fun x _ => if x =? 1 then Terrain SOLID_ROCK else Terrain FLOOR))
    ∅ ∅ ∅ ∅ ∅ ∅ ∅.

(** ** The random source *)

(** Modelled from the spec: [randutils.rng] is not part of the sources at
    hand; the spec describes it as a seedable source of uniform integers,
    choices and shuffles.  The model is a tape of outcomes: the [n]-th draw
    of a run yields [rng_randrange n stop] when it is [rng.randrange(stop)],
    [rng_shuffle n l] when it is [rng.shuffle(l)], and so on.  A function
    that draws takes the number of draws made so far and returns the new
    count. *)
Class RandomSource : Type := {
  rng_randrange : nat -> Z -> Z;
  rng_shuffle : nat -> list pos -> list pos;
  rng_pos_in_rect : nat -> pos * pos -> pos;
  rng_randrange_spec n stop : 0 < stop -> 0 <= rng_randrange n stop < stop;
  rng_shuffle_spec n l : rng_shuffle n l ≡ₚ l;
  rng_pos_in_rect_spec n (r : pos * pos) :
    r.1.1 <= r.2.1 -> r.1.2 <= r.2.2 ->
    r.1.1 <= (rng_pos_in_rect n r).1 <= r.2.1 /\
    r.1.2 <= (rng_pos_in_rect n r).2 <= r.2.2;
}.

(** [rng.randrange(stop)] *)
Definition randrange `{RandomSource} (stop : Z) (n : nat) : result (Z * nat) :=
  if 0 <? stop then Ok (rng_randrange n stop, S n) else Raise EmptyRange.

(** ** Placing, removing and moving things *)

Definition set_actors (m : Map) (ids : gmap positive Actor)
    (a2p : gmap Actor pos) (p2a : gmap pos Actor) : Map :=
  mkMap (id m) (tiles m) ids a2p p2a (_i_to_pos m) (_pos_to_i m)
        (_pos_to_m m) (_map_to_conn m).

Definition set_items (m : Map) (i2p : gmap Item pos)
    (p2i : gmap pos (list Item)) : Map :=
  mkMap (id m) (tiles m) (_id_to_a m) (_a_to_pos m) (_pos_to_a m) i2p p2i
        (_pos_to_m m) (_map_to_conn m).

Definition set_moods (m : Map) (p2m : gmap pos Mood) : Map :=
  mkMap (id m) (tiles m) (_id_to_a m) (_a_to_pos m) (_pos_to_a m)
        (_i_to_pos m) (_pos_to_i m) p2m (_map_to_conn m).

(** [Map.__contains__] for a thing that is not a string.  The keys of
    [_a_to_pos] are actors and those of [_i_to_pos] are items: [place]
    files a thing under its class. *)
Definition contains (m : Map) (thing : Thing) : bool :=
  match thing with
  | AnActor a => bool_decide (is_Some (_a_to_pos m !! a))
  | AnItem i => bool_decide (is_Some (_i_to_pos m !! i))
  | AMood _ | Other => false
  end.

(** [Map.find] *)
Definition find (m : Map) (thing : Thing) : option pos :=
  match thing with
  | AnActor a => _a_to_pos m !! a
  | AnItem i => _i_to_pos m !! i
  | AMood _ | Other => None
  end.

(** The generator returned by [Map._nearby_tiles(pos, free, shuffle=True)]:
    the radii it has still to go through.  Nothing is computed before the
    first [next]. *)
Record nearby_gen : Type := mkNearby {
  gen_map : Map;
  gen_pos : pos;
  gen_free : bool;
  gen_radii : list Z;
}.

Definition _nearby_tiles (m : Map) (p : pos) (free_only : bool) : nearby_gen :=
  let '(w, h) := size m in
  mkNearby m p free_only (range 1 (Z.max w h)).

(** [bool(tiles)] for a generator object: generators define neither
    [__bool__] nor [__len__], so they are always true. *)
Definition generator_bool (g : nearby_gen) : bool := true.

(** The first tile of the radii [radii], ring after ring, each ring
    shuffled by the next draw; [StopIteration] when every ring is empty. *)
Fixpoint first_nearby `{RandomSource} (m : Map) (p : pos) (free_only : bool)
    (radii : list Z) (n : nat) : result (pos * nat) :=
  match radii with
  | [] => Raise StopIteration
  | rad :: radii' =>
      match _ring m p rad free_only (Some (rng_shuffle n)) None true with
      | t :: _ => Ok (t, S n)
      | [] => first_nearby m p free_only radii' (S n)
      end
  end.

(** [next(iter(tiles))] *)
Definition gen_next `{RandomSource} (g : nearby_gen) (n : nat) : result (pos * nat) :=
  first_nearby (gen_map g) (gen_pos g) (gen_free g) (gen_radii g) n.

(** The five random attempts of [Map.random_pos]; the last coordinates
    tried are returned when all five fail. *)
Fixpoint random_attempts `{RandomSource} (m : Map) (free_only : bool)
    (attempts : nat) (last : pos) (n : nat) : result (option pos * pos * nat) :=
  match attempts with
  | O => Ok (None, last, n)
  | S attempts' =>
      let '(w, h) := size m in
      '(x, n) ← randrange w n;
      '(y, n) ← randrange h n;
      if free_only then
        if free m (x, y) then Ok (Some (x, y), (x, y), n)
        else random_attempts m free_only attempts' (x, y) n
      else Ok (Some (x, y), (x, y), n)
  end.

(** [Map.random_pos] *)
Definition random_pos `{RandomSource} (m : Map) (free_only : bool) (n : nat)
    : result (pos * nat) :=
  '(found, last, n) ← random_attempts m free_only 5 (0, 0) n;
  match found with
  | Some p => Ok (p, n)
  | None =>
      let tiles := _nearby_tiles m last free_only in
      if generator_bool tiles then gen_next tiles n
      else Raise MapFull
  end.

(** [Map.place] *)
Definition place `{RandomSource} (m : Map) (thing : Thing) (pos_arg : option pos)
    (fallback : bool) (n : nat) : result (Map * pos * nat) :=
  if contains m thing then Raise AlreadyOnMap
  else
    '(pos, n) ← match pos_arg with
                | None => random_pos m true n
                | Some p => Ok (p, n)
                end;
    match thing with
    | AnActor a =>
        '(pos, n) ←
          (if bool_decide (is_Some (_pos_to_a m !! pos)) then
             if fallback then
               let tiles := _nearby_tiles m pos true in
               if generator_bool tiles then gen_next tiles n
               else Raise MapFull
             else Raise Conflict
           else Ok (pos, n));
        Ok (set_actors m (<[actor_id a := a]> (_id_to_a m))
              (<[a := pos]> (_a_to_pos m)) (<[pos := a]> (_pos_to_a m)),
            pos, n)
    | AnItem i =>
        Ok (set_items m (<[i := pos]> (_i_to_pos m))
              (<[pos := default [] (_pos_to_i m !! pos) ++ [i]]> (_pos_to_i m)),
            pos, n)
    | AMood d =>
        Ok (set_moods m (<[pos := d]> (_pos_to_m m)), pos, n)
    | Other => Raise UnsupportedKind
    end.

(** Modelled from the spec: [items.ItemCollection] is not part of the
    sources at hand; it is the ordered, appendable stack of the items at
    one position.  [remove] takes out the first occurrence and fails when
    there is none. *)
Fixpoint stack_remove (i : Item) (stack : list Item) : option (list Item) :=
  match stack with
  | [] => None
  | j :: stack' =>
      if decide (j = i) then Some stack'
      else cons j <$> stack_remove i stack'
  end.

(** [Map.remove] *)
Definition remove (m : Map) (thing : Thing) : result Map :=
  match thing with
  | AnActor a =>
      match _a_to_pos m !! a with
      | Some p =>
          _ ← of_option KeyError (_pos_to_a m !! p);
          _ ← of_option KeyError (_id_to_a m !! actor_id a);
          Ok (set_actors m (delete (actor_id a) (_id_to_a m))
                (delete a (_a_to_pos m)) (delete p (_pos_to_a m)))
      | None => Raise NotPresent
      end
  | AnItem i =>
      match _i_to_pos m !! i with
      | Some p =>
          stack ← of_option NotInStack
                    (stack_remove i (default [] (_pos_to_i m !! p)));
          Ok (set_items m (delete i (_i_to_pos m)) (<[p := stack]> (_pos_to_i m)))
      | None => Raise NotPresent
      end
  | AMood _ | Other => Raise NotPresent
  end.

(** [Map.move].  For an item the code calls [self._pos_to_i.remove], a
    method that a [defaultdict] does not have. *)
Definition move (m : Map) (thing : Thing) (there : pos) : result Map :=
  match thing with
  | AnActor a =>
      match _a_to_pos m !! a with
      | Some p =>
          _ ← of_option KeyError (_pos_to_a m !! p);
          Ok (set_actors m (_id_to_a m) (<[a := there]> (_a_to_pos m))
                (<[there := a]> (delete p (_pos_to_a m))))
      | None => Raise NotPresent
      end
  | AnItem i =>
      match _i_to_pos m !! i with
      | Some _ => Raise AttributeError
      | None => Raise NotPresent
      end
  | AMood _ | Other => Raise NotPresent
  end.

(** *** Consistency of the occupancy indices *)

(** The stack of items at a position; a position that [_pos_to_i] does not
    know has none. *)
Definition stack_at (m : Map) (p : pos) : list Item :=
  default [] (_pos_to_i m !! p).

(** The indices of a map agree: the two actor indices are inverse of one
    another, the identifier index holds exactly the placed actors, and an
    item is recorded at a position exactly when the stack there holds it,
    once. *)
Record indices_ok (m : Map) : Prop := mk_indices_ok {
  actors_inverse : forall (a : Actor) (p : pos),
    _a_to_pos m !! a = Some p <-> _pos_to_a m !! p = Some a;
  actors_ids : forall (k : positive) (a : Actor),
    _id_to_a m !! k = Some a <-> k = actor_id a /\ is_Some (_a_to_pos m !! a);
  items_stacked : forall (i : Item) (p : pos),
    _i_to_pos m !! i = Some p <-> i ∈ stack_at m p;
  stacks_nodup : forall p : pos, NoDup (stack_at m p);
}.

Inductive op : Type :=
  | Place (thing : Thing) (pos_arg : option pos) (fallback : bool)
  | Remove (thing : Thing)
  | Move (thing : Thing) (there : pos).

(** One operation on a map, with the number of random draws made so far. *)
Definition run_op `{RandomSource} (st : Map * nat) (o : op) : result (Map * nat) :=
  match o with
  | Place thing pos_arg fallback =>
      '(m, _, n) ← place st.1 thing pos_arg fallback st.2;
      Ok (m, n)
  | Remove thing => m ← remove st.1 thing; Ok (m, st.2)
  | Move thing there => m ← move st.1 thing there; Ok (m, st.2)
  end.

Fixpoint run_ops `{RandomSource} (st : Map * nat) (ops : list op)
    : result (Map * nat) :=
  match ops with
  | [] => Ok st
  | o :: ops' => st' ← run_op st o; run_ops st' ops'
  end.

(** The target of a move holds no other actor. *)
Definition move_unoccupied (m : Map) (o : op) : Prop :=
  match o with
  | Move (AnActor a) there =>
      _pos_to_a m !! there = None \/ _pos_to_a m !! there = Some a
  | _ => True
  end.

(** Every move of the run goes to a position that holds no other actor at
    that time. *)
Fixpoint moves_unoccupied `{RandomSource} (st : Map * nat) (ops : list op) : Prop :=
  match ops with
  | [] => True
  | o :: ops' =>
      move_unoccupied st.1 o /\
      match run_op st o with
      | Ok st' => moves_unoccupied st' ops'
      | Raise _ => True
      end
  end.

(** A map of [w] by [h] tiles, all alike, with nothing on it. *)
Definition empty_map (w h : Z) (fill : Tile) : Map :=
  mkMap "map" (arr_make w h fill) ∅ ∅ ∅ ∅ ∅ ∅ ∅.

(** A random source that always draws the least outcome: [randrange]
    gives 0, [shuffle] leaves the list as it is, [pos_in_rect] gives the
    bottom-left corner. *)
Program Definition plain_rng : RandomSource :=
  {| rng_randrange := fun _ _ => 0;
     rng_shuffle := fun _ l => l;
     rng_pos_in_rect := fun _ r => r.1 |}.
Next Obligation. intros; cbn; lia. Qed.
Next Obligation. intros; reflexivity. Qed.
Next Obligation. intros; cbn; lia. Qed.

(** A map of a single floor tile with an actor standing on it. *)
Definition full_map : Map :=
  mkMap "map" (arr_make 1 1 (Terrain FLOOR))
    (<[1%positive := 1%positive]> ∅) (<[1%positive := (0, 0)]> ∅)
    (<[(0, 0) := 1%positive]> ∅) ∅ ∅ ∅ ∅.

(** ** Pickling a map: the hero is left out *)

(** The state that [Map.__getstate__] hands to pickle: a copy of the
    instance dictionary, and the entry ["__hero_pos"] when there is one. *)
Record State : Type := mkState {
  state_dict : Map;
  state_hero_pos : option pos;
}.

(** [Map.__getstate__]; [hero] is the global [tender.hero], [None] when no
    hero is set. *)
Definition getstate (hero : option Actor) (m : Map) : result State :=
  match hero with
  | Some h =>
      match _a_to_pos m !! h with
      | Some p =>
          _ ← of_option KeyError (_id_to_a m !! actor_id h);
          _ ← of_option KeyError (_pos_to_a m !! p);
          Ok (mkState
                (set_actors m (delete (actor_id h) (_id_to_a m))
                   (delete h (_a_to_pos m)) (delete p (_pos_to_a m)))
                (Some p))
      | None => Ok (mkState m None)
      end
  | None => Ok (mkState m None)
  end.

(** The thing that [tender.hero] denotes: an actor, or [None], which is
    no actor, item or mood. *)
Definition hero_thing (hero : option Actor) : Thing :=
  match hero with
  | Some h => AnActor h
  | None => Other
  end.

(** [Map.__setstate__].  The position popped from the state is a pair,
    which is always true in [if hero_pos]. *)
Definition setstate `{RandomSource} (hero : option Actor) (state : State)
    (n : nat) : result Map :=
  hero_pos ← match state_hero_pos state with
             | Some p =>
                 match hero with
                 | None => Raise HeroNotRestored
                 | Some _ => Ok (Some p)
                 end
             | None => Ok None
             end;
  let self := state_dict state in
  match hero_pos with
  | Some p =>
      '(self, _, _) ← place self (hero_thing hero) (Some p) false n;
      Ok self
  | None => Ok self
  end.

(** ** Links between maps *)

(** Maps are objects that refer to one another: a world gives the map
    behind every reference.  A [Connector] object sits in one cell of one
    map (the builder creates a new one for every staircase), so setting its
    [dest_map] is an update of that cell. *)
Abbreviation world := (positive -> Map).

Definition set_conn (m : Map) (conn : gmap string pos) : Map :=
  mkMap (id m) (tiles m) (_id_to_a m) (_a_to_pos m) (_pos_to_a m)
        (_i_to_pos m) (_pos_to_i m) (_pos_to_m m) conn.

(** [self[pos].dest_map = mapid] *)
Definition set_dest_map (m : Map) (p : pos) (mapid : string) : result Map :=
  tile ← getitem m p;
  match tile with
  | Conn c => setitem m p (Conn (mkConnector (char c) (Some mapid)))
  | Terrain _ => Raise AttributeError
  end.

(** [Map.connect]: [self] and [there] are references to maps, which may be
    one and the same map. *)
Definition connect (w : world) (self : positive) (pos1 : pos)
    (there : positive) (pos2 : pos) : result world :=
  tile1 ← getitem (w self) pos1;
  tile2 ← getitem (w there) pos2;
  if negb (isinstance_Connector tile1) then Raise NotAConnector
  else if negb (isinstance_Connector tile2) then Raise NotAConnector
  else
    let w := <[self := set_conn (w self)
                         (<[id (w there) := pos1]> (_map_to_conn (w self)))]> w in
    m ← set_dest_map (w self) pos1 (id (w there));
    let w := <[self := m]> w in
    (* return path *)
    let w := <[there := set_conn (w there)
                          (<[id (w self) := pos2]> (_map_to_conn (w there)))]> w in
    m ← set_dest_map (w there) pos2 (id (w self));
    Ok (<[there := m]> w).

(** [Map.arrival_pos] *)
Definition arrival_pos (m : Map) (mapid : string) : result pos :=
  of_option KeyError (_map_to_conn m !! mapid).

Definition is_connector_at (m : Map) (p : pos) : Prop :=
  exists c, getitem m p = Ok (Conn c).

Definition dest_map_at (m : Map) (p : pos) : option string :=
  match getitem m p with
  | Ok (Conn c) => dest_map c
  | _ => None
  end.

(** ** Path finding *)

(** *** The priority queue *)

(** [class Queue] keeps tuples [(score, (x, y))] in a binary heap
    ([heapq]).  [pop] returns the least tuple, in the lexicographic order
    of Python tuples; equal tuples cannot be told apart, so the sequence of
    popped values does not depend on the layout of the heap.  The model
    keeps the entries in a list and takes the least one out. *)
Abbreviation entry := (Z * pos)%type.

Definition entry_leb (a b : entry) : bool :=
  (a.1 <? b.1) ||
  ((a.1 =? b.1) &&
   ((a.2.1 <? b.2.1) || ((a.2.1 =? b.2.1) && (a.2.2 <=? b.2.2)))).

Definition entry_min (a b : entry) : entry := if entry_leb a b then a else b.

Fixpoint remove_first (e : entry) (q : list entry) : list entry :=
  match q with
  | [] => []
  | e' :: q' => if decide (e' = e) then q' else e' :: remove_first e q'
  end.

(** [Queue.push], [Queue.pop] and [Queue.__bool__] *)
Definition push (q : list entry) (e : entry) : list entry := e :: q.

Definition pop (q : list entry) : result (entry * list entry) :=
  match q with
  | [] => Raise IndexError
  | e :: q' =>
      let least := foldl entry_min e q' in
      Ok (least, remove_first least q)
  end.

Definition queue_bool (q : list entry) : bool :=
  match q with
  | [] => false
  | _ => true
  end.

(** Python's [for x in xs: body], with a body that may raise. *)
Fixpoint for_each {A S : Type} (body : S -> A -> result S) (xs : list A) (s : S)
    : result S :=
  match xs with
  | [] => Ok s
  | x :: xs' => s' ← body s x; for_each body xs' s'
  end.

(** *** A-star: [Map.path] *)

Record AStar : Type := mkAStar {
  came_from : gmap pos pos;   (* a back track map from one point to its predecessor *)
  open_q : list entry;
  open_set : gset pos;
  g_scores : gmap pos Z;
  f_scores : gmap pos Z;
}.

(** [Map._rebuild_path]; the [while] loop runs on [fuel], and on
    [seen_map[current]] a missing key raises. *)
Fixpoint rebuild_loop (fuel : nat) (start current : pos) (seen_map : gmap pos pos)
    (path : list pos) : option (result (list pos)) :=
  if decide (current = start) then Some (Ok (reverse path))
  else
    match fuel with
    | O => None
    | S fuel' =>
        match seen_map !! current with
        | None => Some (Raise KeyError)
        | Some current' =>
            rebuild_loop fuel' start current' seen_map (path ++ [current'])
        end
    end.

Definition _rebuild_path (fuel : nat) (start stop : pos) (seen_map : gmap pos pos)
    : option (result (list pos)) :=
  rebuild_loop fuel start stop seen_map [stop].

(** The inner loop of [Map.path]: pop until the popped position is in the
    open set.  Every turn takes one entry out of the queue, so the number
    of entries bounds the number of turns. *)
Fixpoint pop_open (turns : nat) (q : list entry) (open : gset pos)
    : result (pos * list entry) :=
  '(e, q') ← pop q;
  if decide (e.2 ∈ open) then Ok (e.2, q')
  else
    match turns with
    | O => Raise IndexError
    | S turns' => pop_open turns' q' open
    end.

(** The body of [for pos in self.adjacents(current)] in [Map.path]. *)
Definition relax (m : Map) (goal current : pos) (st : AStar) (p : pos)
    : result AStar :=
  if negb (free m p) && negb (bool_decide (p = goal)) then Ok st
  else
    g_current ← of_option KeyError (g_scores st !! current);
    let g_score := g_current + distance current p in
    if match g_scores st !! p with
       | None => true
       | Some g_p => g_score <? g_p
       end
    then
      let f_score := g_score + distance p goal in
      Ok (mkAStar (<[p := current]> (came_from st))
            (push (open_q st) (f_score, p))
            ({[p]} ∪ open_set st)
            (<[p := g_score]> (g_scores st))
            (<[p := f_score]> (f_scores st)))
    else Ok st.

(** The outer [while open_set] loop of [Map.path], on [fuel]: [None] means
    that the fuel ran out before the loop ended. *)
Fixpoint path_loop (fuel : nat) (m : Map) (start goal : pos) (st : AStar)
    : option (result (option (list pos))) :=
  if decide (open_set st = ∅) then Some (Ok None)
  else
    match fuel with
    | O => None
    | S fuel' =>
        match pop_open (length (open_q st)) (open_q st) (open_set st) with
        | Raise e => Some (Raise e)
        | Ok (current, q') =>
            let st := mkAStar (came_from st) q' (open_set st ∖ {[current]})
                        (g_scores st) (f_scores st) in
            if decide (current = goal) then
              match _rebuild_path (base.size (came_from st)) start goal
                      (came_from st) with
              | Some (Ok steps) => Some (Ok (Some steps))
              | Some (Raise e) => Some (Raise e)
              | None => None
              end
            else
              match for_each (relax m goal current)
                      (adjacents m current false None None true) st with
              | Raise e => Some (Raise e)
              | Ok st' => path_loop fuel' m start goal st'
              end
        end
    end.

(** [Map.iter_coords] *)
Definition iter_coords (m : Map) : list pos :=
  let '(w, h) := size m in
  x ← range 0 w; y ← range 0 h; [(x, y)].

(** The positions that a search from [start] can touch: the start and the
    positions of the map. *)
Definition nodes (m : Map) (start : pos) : gset pos :=
  {[start]} ∪ list_to_set (iter_coords m).

(** Enough turns of the outer loop of [Map.path] for any map of this
    size. *)
Definition path_fuel (m : Map) (start : pos) : nat :=
  let n := base.size (nodes m start) in
  (2 * (n + 1) * n + 2)%nat.

(** [Map.path] *)
Definition path (m : Map) (start goal : pos) : option (result (option (list pos))) :=
  let f_start := distance start goal in
  path_loop (path_fuel m start) m start goal
    (mkAStar ∅ (push [] (f_start, start)) {[start]}
       {[start := 0]} {[start := f_start]}).

(** *** Distance metrics: [Map.dist_metrics] *)

(** [class MapMetrics] *)
Record MapMetrics : Type := mkMetrics {
  metrics_start : pos;
  dists : gmap pos Z;
  furthest_pos : pos;
  furthest_dist : Z;
  prevs : gmap pos (option pos);
}.

(** [MapMetrics.__init__] *)
Definition metrics_init (start : pos) : MapMetrics :=
  mkMetrics start {[start := 0]} start 0 {[start := None]}.

(** [MapMetrics.__setitem__] *)
Definition metrics_set (mt : MapMetrics) (p : pos) (value : Z) : MapMetrics :=
  let '(fp, fd) := if furthest_dist mt <? value then (p, value)
                   else (furthest_pos mt, furthest_dist mt) in
  mkMetrics (metrics_start mt) (<[p := value]> (dists mt)) fp fd (prevs mt).

(** [MapMetrics.add_edge] *)
Definition add_edge (mt : MapMetrics) (here there : pos) : MapMetrics :=
  mkMetrics (metrics_start mt) (dists mt) (furthest_pos mt) (furthest_dist mt)
    (<[there := Some here]> (prevs mt)).

Record Dijkstra : Type := mkDijkstra {
  metrics : MapMetrics;
  bfs_q : list entry;
  done : gset pos;
}.

(** The body of [for pos in self.adjacents(current, free=True, ...)] in
    [Map.dist_metrics]. *)
Definition label (dist : Z) (current : pos) (st : Dijkstra) (p : pos) : Dijkstra :=
  let mt := metrics st in
  let mt := if match dists mt !! p with
               | None => true
               | Some d => dist + 1 <? d
               end
            then add_edge (metrics_set mt p (dist + 1)) current p
            else mt in
  mkDijkstra mt (push (bfs_q st) (dist + 1, p)) (done st).

(** The [while open_q] loop of [Map.dist_metrics], on [fuel]. *)
Fixpoint metrics_loop (fuel : nat) (m : Map) (dest : option pos)
    (max_dist : option Z) (st : Dijkstra) : option (result MapMetrics) :=
  if negb (queue_bool (bfs_q st)) then Some (Ok (metrics st))
  else
    match fuel with
    | O => None
    | S fuel' =>
        match pop (bfs_q st) with
        | Raise e => Some (Raise e)
        | Ok ((dist, current), q') =>
            let st := mkDijkstra (metrics st) q' (done st) in
            if bool_decide (Some current = dest) then Some (Ok (metrics st))
            else if bool_decide (current ∈ done st) || bool_decide (Some dist = max_dist)
            then metrics_loop fuel' m dest max_dist st
            else
              let is_not_done := fun p => bool_decide (p ∉ done st) in
              let st := foldl (label dist current) st
                          (adjacents m current true None (Some is_not_done) true) in
              metrics_loop fuel' m dest max_dist
                (mkDijkstra (metrics st) (bfs_q st) ({[current]} ∪ done st))
        end
    end.

Definition metrics_fuel (m : Map) (start : pos) : nat :=
  (9 * base.size (nodes m start) + 2)%nat.

(** [Map.dist_metrics], for a given [start]. *)
Definition dist_metrics (m : Map) (start : pos) (dest : option pos)
    (max_dist : option Z) : option (result MapMetrics) :=
  metrics_loop (metrics_fuel m start) m dest max_dist
    (mkDijkstra (metrics_init start) (push [] (0, start)) ∅).

(** A small maze to run the searches on:
<<
    y=2  . . .
    y=1  # # .
    y=0  . . .
>>
*)
Definition bend : Map :=
  mkMap "bend"
    (mkArray 3 3 (fun x y => if (y =? 1) && (x <? 2) then Terrain WALL
                             else Terrain FLOOR))
    ∅ ∅ ∅ ∅ ∅ ∅ ∅.

(** *** Walks on the grid *)

(** One step of a search: to a tile of the map next to [p] that passes the
    test [ok]. *)
Definition edge (m : Map) (ok : pos -> bool) (p q : pos) : Prop :=
  distance p q = 1 /\ is_in_map m q = true /\ ok q = true.

(** [walk m ok p k q]: [k] steps lead from [p] to [q]. *)
Inductive walk (m : Map) (ok : pos -> bool) : pos -> nat -> pos -> Prop :=
  | walk_here p : walk m ok p 0 p
  | walk_step p p' k q :
      edge m ok p p' -> walk m ok p' k q -> walk m ok p (S k) q.

(** The tiles that [Map.path] may step on: free ones, and the goal. *)
Definition passable (m : Map) (goal : pos) (q : pos) : bool :=
  free m q || bool_decide (q = goal).

(** *** The invariant of [Map.path] *)

(** Sums over a list of positions. *)
Definition sum_over (f : pos -> Z) (l : list pos) : Z :=
  foldr (fun p acc => f p + acc) 0 l.

(** The potential of the scores: every position that the search can touch
    counts for its score, or for [pot_bound] when it has none yet. *)
Definition pot_bound (m : Map) (start : pos) : Z :=
  Z.of_nat (base.size (nodes m start)) + 1.

Definition potential (m : Map) (start : pos) (g : gmap pos Z) : Z :=
  sum_over (fun p => default (pot_bound m start) (g !! p))
    (elements (nodes m start)).

Definition measure (m : Map) (start : pos) (st : AStar) : Z :=
  2 * potential m start (g_scores st) + Z.of_nat (base.size (open_set st)).

(** The invariant of the loops of [Map.path].  [required p q] tells for
    which steps from a closed position [p] the score of [q] must already
    be within one of that of [p]: all of them between two turns of the
    outer loop. *)
Record astar_inv (m : Map) (start goal : pos) (required : pos -> pos -> Prop)
    (st : AStar) : Prop := mk_astar_inv {
  inv_start : g_scores st !! start = Some 0;
  inv_nonneg : forall p g, g_scores st !! p = Some g -> 0 <= g;
  inv_reach : forall p g, g_scores st !! p = Some g ->
    exists k, walk m (passable m goal) start k p;
  inv_nodes : forall p g, g_scores st !! p = Some g -> p ∈ nodes m start;
  inv_open : forall p, p ∈ open_set st ->
    exists g, g_scores st !! p = Some g /\ (g + distance p goal, p) ∈ open_q st;
  inv_queue : forall f p, (f, p) ∈ open_q st ->
    exists g, g_scores st !! p = Some g /\ g + distance p goal <= f;
  inv_closed : forall p g q, g_scores st !! p = Some g -> p ∉ open_set st ->
    edge m (passable m goal) p q -> required p q ->
    exists g', g_scores st !! q = Some g' /\ g' <= g + 1;
  inv_came : forall p q, came_from st !! p = Some q ->
    edge m (passable m goal) q p /\
    exists gp gq, g_scores st !! p = Some gp /\ g_scores st !! q = Some gq /\
                  gq + 1 <= gp;
  inv_came_dom : forall p g, p <> start -> g_scores st !! p = Some g ->
    is_Some (came_from st !! p);
  inv_bound : forall p g, g_scores st !! p = Some g ->
    g <= Z.of_nat (base.size (came_from st));
  inv_goal : goal ∈ open_set st \/ g_scores st !! goal = None;
}.

(** While the neighbours of [cur] are gone through, the steps from [cur]
    are required only towards the neighbours already seen. *)
Definition mid_required (cur : pos) (seen : pos -> Prop) : pos -> pos -> Prop :=
  fun p q => p <> cur \/ seen q.

(** The outcome of a walk search: no walk at all, or a list of positions
    as long as a shortest walk. *)
Definition search_outcome (m : Map) (ok : pos -> bool) (start goal : pos)
    (r : option (list pos)) : Prop :=
  match r with
  | None => forall k, ~ walk m ok start k goal
  | Some steps =>
      exists j, length steps = S j /\ walk m ok start j goal /\
        forall k, walk m ok start k goal -> (j <= k)%nat
  end.

(** *** The invariant of [Map.dist_metrics] *)

(** The invariant of the loop of [Map.dist_metrics] (with no [dest] and no
    [max_dist]).  While the neighbours of a position are labelled, that
    position is [exempt] from having its entry in the queue. *)
Record bfs_inv (m : Map) (start : pos) (exempt : pos -> Prop) (st : Dijkstra)
    : Prop := mk_bfs_inv {
  b_start : dists (metrics st) !! start = Some 0;
  b_sound : forall p d, dists (metrics st) !! p = Some d ->
    0 <= d /\ walk m (free m) start (Z.to_nat d) p;
  b_nodes : forall p d, dists (metrics st) !! p = Some d -> p ∈ nodes m start;
  b_queue : forall d p, (d, p) ∈ bfs_q st ->
    0 <= d /\ walk m (free m) start (Z.to_nat d) p /\
    exists d', dists (metrics st) !! p = Some d' /\ d' <= d;
  b_pending : forall p d, dists (metrics st) !! p = Some d -> p ∉ done st ->
    ~ exempt p -> (d, p) ∈ bfs_q st;
  b_done_dom : forall p, p ∈ done st -> is_Some (dists (metrics st) !! p);
  b_mono : forall p d e, p ∈ done st -> dists (metrics st) !! p = Some d ->
    e ∈ bfs_q st -> d <= e.1;
  b_closed : forall p d q, p ∈ done st -> dists (metrics st) !! p = Some d ->
    edge m (free m) p q ->
    exists d', dists (metrics st) !! q = Some d' /\ d' <= d + 1;
}.

(** What [Map.dist_metrics] has found for the position [p]: its distance
    is the length of a shortest walk from the start through free tiles;
    it has none when there is no such walk. *)
Definition shortest_label (m : Map) (start : pos) (mt : MapMetrics) (p : pos) : Prop :=
  match dists mt !! p with
  | Some d =>
      0 <= d /\ walk m (free m) start (Z.to_nat d) p /\
      forall k, walk m (free m) start k p -> d <= Z.of_nat k
  | None => forall k, ~ walk m (free m) start k p
  end.

(** Two floor tiles with a wall between them. *)
Definition walled_off : Map :=
  mkMap "walled"
    (mkArray 3 1 (fun x _ => if x =? 1 then Terrain WALL else Terrain FLOOR))
    ∅ ∅ ∅ ∅ ∅ ∅ ∅.

(** ** Maze generation: the recursive backtracker *)

(** Modelled from the spec: the [geometry] module is not part of the
    sources at hand.  A rectangle is the pair of its bottom-left and
    top-right corners, both inside it (as [Map.rect] and
    [RoomPlan.__contains__] have it); vectors add component by component;
    the mid point of two coordinates is the mean of each component. *)
Definition is_in_rect (p : pos) (r : pos * pos) : bool :=
  let '((x1, y1), (x2, y2)) := r in
  (x1 <=? p.1) && (p.1 <=? x2) && (y1 <=? p.2) && (p.2 <=? y2).

Definition vect_add (a b : pos) : pos := (a.1 + b.1, a.2 + b.2).

Definition mid_point (a b : pos) : pos := ((a.1 + b.1) / 2, (a.2 + b.2) / 2).

(** [geom.iter_coords] *)
Definition rect_coords (r : pos * pos) : list pos :=
  let '((x1, y1), (x2, y2)) := r in
  x ← range x1 (x2 + 1); y ← range y1 (y2 + 1); [(x, y)].

(** [MazeAlgo.nb_cells]: [sum(divmod(n, 2))] is [n // 2 + n % 2]. *)
Definition nb_cells (r : pos * pos) : Z :=
  let '((x1, y1), (x2, y2)) := r in
  let w := (x2 - x1 + 1) / 2 + (x2 - x1 + 1) mod 2 in
  let h := (y2 - y1 + 1) / 2 + (y2 - y1 + 1) mod 2 in
  w * h.

(** [RecursiveBacktracker.neighbor_offsets] *)
Definition neighbor_offsets : list pos := [(2, 0); (-2, 0); (0, 2); (0, -2)].

(** [RecursiveBacktracker.neighbors] *)
Definition neighbors (r : pos * pos) (coord : pos) : list pos :=
  List.filter (fun next_coord => is_in_rect next_coord r)
    ((fun offset => vect_add offset coord) <$> neighbor_offsets).

(** The state of a [RecursiveBacktracker]: the map it carves, the set of
    visited cells and the number of random draws made so far.
    [bt_calls] is not in the code: it records, in order, the cells on
    which [fill(coord)] was entered. *)
Record Backtracker : Type := mkBacktracker {
  bt_map : Map;
  visited : gset pos;
  bt_draws : nat;
  bt_calls : list pos;
}.

(** The [while next_options] loop of [RecursiveBacktracker.fill];
    [next_options] is given in the order in which [pop()] takes the cells
    out, and [fill] is the recursive call. *)
Fixpoint fill_loop (fill : pos -> Backtracker -> option (result Backtracker))
    (coord : pos) (next_options : list pos) (st : Backtracker)
    : option (result Backtracker) :=
  match next_options with
  | [] => Some (Ok st)
  | next_cell :: rest =>
      if decide (next_cell ∈ visited st) then fill_loop fill coord rest st
      else
        let connector := mid_point coord next_cell in
        match setitem (bt_map st) connector (Terrain FLOOR) with
        | Raise e => Some (Raise e)
        | Ok m' =>
            match fill next_cell
                    (mkBacktracker m' (visited st) (bt_draws st) (bt_calls st)) with
            | Some (Ok st') => fill_loop fill coord rest st'
            | other => other
            end
        end
  end.

(** [RecursiveBacktracker.fill(coord)] for a given [coord].  The depth of
    the recursion is bounded by [fuel] ([None] when it runs out); the
    recursion limit of the Python interpreter is not modelled. *)
Fixpoint fill_cell `{RandomSource} (fuel : nat) (r : pos * pos) (coord : pos)
    (st : Backtracker) : option (result Backtracker) :=
  match fuel with
  | O => None
  | S fuel' =>
      match setitem (bt_map st) coord (Terrain FLOOR) with
      | Raise e => Some (Raise e)
      | Ok m' =>
          let visited' := {[coord]} ∪ visited st in
          let next_options :=
            List.filter (fun cell => bool_decide (cell ∉ visited')) (neighbors r coord) in
          let next_options := rng_shuffle (bt_draws st) next_options in
          fill_loop (fill_cell fuel' r) coord (reverse next_options)
            (mkBacktracker m' visited' (S (bt_draws st)) (bt_calls st ++ [coord]))
      end
  end.

(** [RecursiveBacktracker.fill()], from a new [RecursiveBacktracker] on the
    rectangle [r] of the map [m], after [n] random draws. *)
Definition fill `{RandomSource} (m : Map) (r : pos * pos) (n : nat)
    : option (result Backtracker) :=
  let start := rng_pos_in_rect n r in
  match setitem m start (Terrain FLOOR) with
  | Raise e => Some (Raise e)
  | Ok m' =>
      fill_cell (S (length (rect_coords r))) r start
        (mkBacktracker m' {[start]} (S n) [])
  end.

(** A random source that gives [start] for every position drawn in a
    rectangle that holds it, and the least outcome otherwise. *)
Program Definition rng_starting_at (start : pos) : RandomSource :=
  {| rng_randrange := fun _ _ => 0;
     rng_shuffle := fun _ l => l;
     rng_pos_in_rect := fun _ r => if is_in_rect start r then start else r.1 |}.
Next Obligation. intros; cbn; lia. Qed.
Next Obligation. intros; reflexivity. Qed.
Next Obligation.
  intros start n [[x1 y1] [x2 y2]]. cbn. intros H1 H2.
  destruct ((x1 <=? start.1) && (start.1 <=? x2) && (y1 <=? start.2)
            && (start.2 <=? y2)) eqn:E; cbn; [|lia].
  rewrite !andb_true_iff, !Z.leb_le in E. lia.
Qed.

(** A map of solid rock. *)
Definition rock (w h : Z) : Map := empty_map w h (Terrain SOLID_ROCK).

(** *** What the recursive backtracker carves *)

(** The rectangle lies inside the map. *)
Definition rect_inside (m : Map) (r : pos * pos) : Prop :=
  0 <= r.1.1 /\ r.2.1 < arr_width (tiles m) /\
  0 <= r.1.2 /\ r.2.2 < arr_height (tiles m).

(** [c] is a whole number of two-tile steps away from [start], on either
    axis. *)
Definition lattice (start c : pos) : Prop :=
  exists i j : Z, c = (start.1 + 2 * i, start.2 + 2 * j).

Definition cells_of (r : pos * pos) : gset pos := list_to_set (rect_coords r).

Definition floor_at (m : Map) (p : pos) : Prop := tile_at m p = Terrain FLOOR.

(** What a stretch of the run does, from [st] to [st']: it visits the
    cells [cs], each for the first time. *)
Record carved (start : pos) (r : pos * pos) (st st' : Backtracker)
    (cs : list pos) : Prop := mk_carved {
  cv_visited : forall c, c ∈ visited st' <-> c ∈ visited st \/ c ∈ cs;
  cv_fresh : forall c, c ∈ cs -> c ∉ visited st;
  cv_nodup : NoDup cs;
  cv_calls : bt_calls st' = bt_calls st ++ cs;
  cv_rect : forall c, c ∈ cs -> is_in_rect c r = true /\ lattice start c;
  cv_closed : forall c c', c ∈ cs -> c' ∈ neighbors r c -> c' ∈ visited st';
  cv_floor : forall c, c ∈ cs -> floor_at (bt_map st') c;
  cv_kept : forall p, floor_at (bt_map st) p -> floor_at (bt_map st') p;
  cv_inside : rect_inside (bt_map st') r;
}.

(** The state in which [fill(coord)] starts its loop. *)
Definition entered (m' : Map) (coord : pos) (st : Backtracker) : Backtracker :=
  mkBacktracker m' ({[coord]} ∪ visited st) (S (bt_draws st)) (bt_calls st ++ [coord]).

(** What [fill(coord)] does with enough fuel. *)
Definition cell_post `{RandomSource} (fuel : nat) (start : pos) (r : pos * pos)
    (coord : pos) (st : Backtracker) : Prop :=
  exists m' st' cs,
    setitem (bt_map st) coord (Terrain FLOOR) = Ok m' /\
    floor_at m' coord /\
    fill_cell fuel r coord st = Some (Ok st') /\
    carved start r (entered m' coord st) st' cs /\
    (forall c', c' ∈ neighbors r coord -> c' ∈ visited st').

(** The cells of a rectangle that [MazeAlgo.nb_cells] counts: those at an
    even offset from the bottom-left corner on both axes. *)
Definition fillable (r : pos * pos) (c : pos) : Prop :=
  is_in_rect c r = true /\ lattice r.1 c.

(** * Properties *)

(** ** Bounds checks of the walkability queries *)

Lemma is_walkable_total (m : Map) (p : pos) :
  is_walkable m p = Ok (walkable m p).
Proof.
  destruct p as [x y]. unfold is_walkable, walkable, is_in_map, size, getitem,
    arr_get, in_range. simpl.
  destruct ((0 <=? x) && (x <? arr_width (tiles m)) && (0 <=? y)
            && (y <? arr_height (tiles m))); reflexivity.
Qed.

Lemma is_free_total (m : Map) (p : pos) :
  is_free m p = Ok (free m p).
Proof.
  unfold is_free, free. rewrite is_walkable_total. simpl.
  destruct (walkable m p && bool_decide (_pos_to_a m !! p = None)); reflexivity.
Qed.

Lemma out_of_bounds_not_in_map (m : Map) (p : pos) :
  out_of_bounds m p -> is_in_map m p = false.
Proof.
  destruct p as [x y]. unfold out_of_bounds, is_in_map, size. simpl.
  intros H. apply andb_false_iff.
  rewrite !andb_false_iff, !Z.leb_gt, !Z.ltb_ge. lia.
Qed.

(** C10: for every position outside the bounds of the map, [is_walkable]
    and [is_free] return [False]; they do not raise, and the tile array is
    not read (the result does not depend on its content). *)
Theorem is_walkable_is_free_out_of_bounds (m : Map) (p : pos) :
  out_of_bounds m p ->
  is_walkable m p = Ok false /\ is_free m p = Ok false /\
  (forall cells,
     is_walkable (set_tiles m (mkArray (arr_width (tiles m))
                                 (arr_height (tiles m)) cells)) p = Ok false).
Proof.
  intros Hout.
  assert (Hw : forall m', arr_width (tiles m') = arr_width (tiles m) ->
                 arr_height (tiles m') = arr_height (tiles m) ->
                 is_walkable m' p = Ok false).
  { intros m' Hw Hh. rewrite is_walkable_total. unfold walkable.
    rewrite out_of_bounds_not_in_map; [reflexivity|].
    unfold out_of_bounds. rewrite Hw, Hh. exact Hout. }
  split; [apply Hw; reflexivity|]. split.
  - unfold is_free. rewrite Hw by reflexivity. reflexivity.
  - intros cells. apply Hw; reflexivity.
Qed.

Lemma is_walkable_is_free_out_of_bounds_witness :
  let m := mkMap "m" (arr_make 2 2 (Terrain FLOOR)) ∅ ∅ ∅ ∅ ∅ ∅ ∅ in
  is_walkable m (2, 0) = Ok false /\ is_free m (-1, 1) = Ok false.
Proof.
  intros m. split.
  - apply (is_walkable_is_free_out_of_bounds m (2, 0)).
    unfold out_of_bounds; simpl; lia.
  - apply (is_walkable_is_free_out_of_bounds m (-1, 1)).
    unfold out_of_bounds; simpl; lia.
Defined.

(** ** Rings *)

Lemma length_range a b : length (range a b) = Z.to_nat (b - a).
Proof. unfold range. apply length_seqZ. Qed.

Lemma length_range_down a b : length (range_down a b) = Z.to_nat (a - b).
Proof. unfold range_down. rewrite length_fmap. apply length_seqZ. Qed.

Lemma lookup_range a b (i : nat) :
  Z.of_nat i < b - a -> range a b !! i = Some (a + Z.of_nat i).
Proof. intros H. unfold range. apply lookup_seqZ. lia. Qed.

Lemma lookup_range_down a b (i : nat) :
  Z.of_nat i < a - b -> range_down a b !! i = Some (a - Z.of_nat i).
Proof.
  intros H. unfold range_down. rewrite list_lookup_fmap.
  rewrite (proj2 (lookup_seqZ 0 (a - b) i (Z.of_nat i))) by lia.
  reflexivity.
Qed.

Lemma length_ring_coords c r :
  0 <= r -> length (ring_coords c r) = Z.to_nat (8 * r) \/ r = 0.
Proof.
  intros Hr. destruct c as [x y]. unfold ring_coords.
  rewrite !length_app, !length_fmap, !length_range, !length_range_down.
  lia.
Qed.

Lemma ring_coords_lookup c r (k : nat) :
  1 <= r -> Z.of_nat k < 8 * r ->
  ring_coords c r !! k = Some (ring_nth c r (Z.of_nat k)).
Proof.
  intros Hr Hk. destruct c as [x y]. unfold ring_coords, ring_nth.
  destruct (Z.leb_spec (Z.of_nat k) (2 * r)).
  { rewrite lookup_app_l by (rewrite length_fmap, length_range; lia).
    rewrite list_lookup_fmap, lookup_range by lia. simpl. f_equal. f_equal; lia. }
  rewrite lookup_app_r by (rewrite length_fmap, length_range; lia).
  rewrite length_fmap, length_range.
  destruct (Z.leb_spec (Z.of_nat k) (4 * r)).
  { rewrite lookup_app_l by (rewrite length_fmap, length_range; lia).
    rewrite list_lookup_fmap, lookup_range by lia. simpl. f_equal. f_equal; lia. }
  rewrite lookup_app_r by (rewrite length_fmap, length_range; lia).
  rewrite length_fmap, length_range.
  destruct (Z.leb_spec (Z.of_nat k) (6 * r)).
  { rewrite lookup_app_l by (rewrite length_fmap, length_range_down; lia).
    rewrite list_lookup_fmap, lookup_range_down by lia. simpl. f_equal. f_equal; lia. }
  rewrite lookup_app_r by (rewrite length_fmap, length_range_down; lia).
  rewrite length_fmap, length_range_down.
  rewrite list_lookup_fmap, lookup_range_down by lia. simpl. f_equal. f_equal; lia.
Qed.

Lemma ring_coords_lookup_inv c r (k : nat) p :
  1 <= r -> ring_coords c r !! k = Some p ->
  Z.of_nat k < 8 * r /\ p = ring_nth c r (Z.of_nat k).
Proof.
  intros Hr Hp.
  assert (Hlt : (k < length (ring_coords c r))%nat) by (eapply lookup_lt_Some; eauto).
  destruct (length_ring_coords c r) as [Hl|]; [lia| |lia].
  rewrite Hl in Hlt. split; [lia|].
  rewrite ring_coords_lookup in Hp by lia. congruence.
Qed.

Lemma ring_nth_distance c r k :
  1 <= r -> 0 <= k < 8 * r -> distance c (ring_nth c r k) = r.
Proof.
  intros Hr Hk. destruct c as [x y]. unfold ring_nth, distance.
  repeat match goal with |- context [?a <=? ?b] => destruct (Z.leb_spec a b) end;
    lia.
Qed.

Lemma ring_nth_inj c r k1 k2 :
  1 <= r -> 0 <= k1 < 8 * r -> 0 <= k2 < 8 * r ->
  ring_nth c r k1 = ring_nth c r k2 -> k1 = k2.
Proof.
  intros Hr H1 H2. destruct c as [x y]. unfold ring_nth.
  repeat match goal with |- context [?a <=? ?b] => destruct (Z.leb_spec a b) end;
    intros Heq; inversion Heq; lia.
Qed.

Lemma ring_nth_turn c r k :
  1 <= r -> 0 <= k -> k + 1 < 8 * r ->
  turn c (ring_nth c r k) (ring_nth c r (k + 1)) = r /\
  distance (ring_nth c r k) (ring_nth c r (k + 1)) = 1.
Proof.
  intros Hr H1 H2. destruct c as [x y]. unfold ring_nth, turn, distance.
  repeat match goal with |- context [?a <=? ?b] => destruct (Z.leb_spec a b) end;
    simpl; split; try lia; try nia.
Qed.

(** Membership in a ring is being at that grid distance. *)
Lemma elem_of_ring_coords c r p :
  1 <= r -> p ∈ ring_coords c r <-> distance c p = r.
Proof.
  intros Hr. split.
  - intros Hin. apply list_elem_of_lookup in Hin as [k Hk].
    apply ring_coords_lookup_inv in Hk as [Hlt ->]; [|done].
    apply ring_nth_distance; lia.
  - intros Hd. destruct c as [x y], p as [px py]. unfold distance in Hd.
    assert (Hex : exists k, 0 <= k < 8 * r /\ ring_nth (x, y) r k = (px, py)).
    { unfold ring_nth.
      destruct (Z.eq_dec py (y - r)) as [->|Hb].
      { exists (px - x + r). split; [lia|].
        destruct (Z.leb_spec (px - x + r) (2 * r)); [f_equal; lia|lia]. }
      destruct (Z.eq_dec px (x + r)) as [->|Hri].
      { exists (py - y + 3 * r). split; [lia|].
        destruct (Z.leb_spec (py - y + 3 * r) (2 * r)); [lia|].
        destruct (Z.leb_spec (py - y + 3 * r) (4 * r)); [f_equal; lia|lia]. }
      destruct (Z.eq_dec py (y + r)) as [->|Ht].
      { exists (x + 5 * r - px). split; [lia|].
        destruct (Z.leb_spec (x + 5 * r - px) (2 * r)); [lia|].
        destruct (Z.leb_spec (x + 5 * r - px) (4 * r)); [lia|].
        destruct (Z.leb_spec (x + 5 * r - px) (6 * r)); [f_equal; lia|lia]. }
      exists (y + 7 * r - py). split; [lia|].
      destruct (Z.leb_spec (y + 7 * r - py) (2 * r)); [lia|].
      destruct (Z.leb_spec (y + 7 * r - py) (4 * r)); [lia|].
      destruct (Z.leb_spec (y + 7 * r - py) (6 * r)); [lia|f_equal; lia]. }
    destruct Hex as (k & Hk & <-).
    apply list_elem_of_lookup. exists (Z.to_nat k).
    rewrite ring_coords_lookup by lia. f_equal. f_equal. lia.
Qed.

Lemma NoDup_ring_coords c r : 1 <= r -> NoDup (ring_coords c r).
Proof.
  intros Hr. apply NoDup_alt. intros i j p Hi Hj.
  apply ring_coords_lookup_inv in Hi as [Hi ->]; [|done].
  apply ring_coords_lookup_inv in Hj as [Hj Heq]; [|done].
  apply ring_nth_inj in Heq; lia.
Qed.

Lemma sift_all (pred : pos -> bool) tiles :
  (forall p, p ∈ tiles -> pred p = true) -> sift pred tiles = tiles.
Proof.
  unfold sift. induction tiles as [|t tiles IH]; intros H; [done|].
  simpl. rewrite H by left. f_equal. apply IH. intros p Hp. apply H. by right.
Qed.

(** C5: when the whole ring lies inside the map, [_ring(center, r)] for
    [r >= 1] with no filter, [free=False] and [shuffle=False] returns
    exactly [8 r] distinct coordinates, each at grid (Chebyshev) distance
    exactly [r] from the centre, starting at the bottom-left corner of the
    ring and turning counter-clockwise around the centre, one tile at a
    time. *)
Theorem ring_unfiltered (m : Map) (center : pos) (r : Z) :
  1 <= r -> ring_inside m center r ->
  let tiles := _ring m center r false None None true in
  length tiles = Z.to_nat (8 * r) /\
  NoDup tiles /\
  (forall p, p ∈ tiles -> distance center p = r) /\
  tiles !! 0%nat = Some (center.1 - r, center.2 - r) /\
  (forall (k : nat) p q, tiles !! k = Some p -> tiles !! S k = Some q ->
     0 < turn center p q /\ distance p q = 1).
Proof.
  intros Hr Hin tiles.
  assert (Htiles : tiles = ring_coords center r).
  { unfold tiles, _ring. apply sift_all. intros p Hp.
    apply elem_of_ring_coords in Hp; [|done].
    destruct center as [x y], p as [px py].
    unfold ring_inside in Hin. unfold distance in Hp. simpl in *.
    unfold is_in_map, size.
    rewrite !andb_true_iff, !Z.leb_le, !Z.ltb_lt. lia. }
  rewrite Htiles. clear tiles Htiles.
  split; [|split; [|split; [|split]]].
  - destruct (length_ring_coords center r); lia.
  - by apply NoDup_ring_coords.
  - intros p Hp. by apply elem_of_ring_coords.
  - rewrite (ring_coords_lookup center r 0) by lia.
    destruct center as [x y]. unfold ring_nth. change (Z.of_nat 0) with 0.
    destruct (Z.leb_spec 0 (2 * r)); [|lia]. simpl. do 2 f_equal. lia.
  - intros k p q Hp Hq.
    apply ring_coords_lookup_inv in Hp as [Hk ->]; [|done].
    apply ring_coords_lookup_inv in Hq as [Hk' ->]; [|done].
    replace (Z.of_nat (S k)) with (Z.of_nat k + 1) by lia.
    destruct (ring_nth_turn center r (Z.of_nat k)) as [Ht Hd]; lia.
Qed.

Lemma ring_unfiltered_witness :
  let m := mkMap "m" (arr_make 5 5 (Terrain FLOOR)) ∅ ∅ ∅ ∅ ∅ ∅ ∅ in
  length (_ring m (2, 2) 2 false None None true) = 16%nat.
Proof.
  intros m.
  apply (ring_unfiltered m (2, 2) 2); [lia|].
  unfold ring_inside; simpl; lia.
Defined.

(** ** Line of sight *)

Lemma py_int_comp q q' : (q == q')%Q -> py_int q = py_int q'.
Proof.
  intros H. unfold py_int.
  rewrite (Qfloor_comp _ _ H), (Qceiling_comp _ _ H).
  assert (Hb : Qle_bool 0 q = Qle_bool 0 q').
  { apply eq_true_iff_eq. rewrite !Qle_bool_iff. rewrite H. reflexivity. }
  rewrite Hb. reflexivity.
Qed.

Lemma py_int_div n d : 0 <= n -> 0 < d -> py_int (inject_Z n / inject_Z d) = n / d.
Proof.
  intros Hn Hd. unfold py_int. rewrite <- Zdiv_Qdiv.
  destruct (Qle_bool 0 (inject_Z n / inject_Z d)) eqn:E; [reflexivity|].
  exfalso.
  assert (H : (0 <= inject_Z n / inject_Z d)%Q).
  { apply Qle_shift_div_l.
    - change 0%Q with (inject_Z 0). rewrite <- Zlt_Qlt. lia.
    - rewrite Qmult_0_l. change 0%Q with (inject_Z 0). rewrite <- Zle_Qle. lia. }
  apply Qle_bool_iff in H. congruence.
Qed.

Lemma lerp_eq mult i c1 c2 :
  0 < mult ->
  (lerp mult i c1 c2 ==
   inject_Z ((mult - i) * (2 * c1 + 1) + i * (2 * c2 + 1)) / inject_Z (2 * mult))%Q.
Proof.
  intros Hm. unfold lerp.
  rewrite !inject_Z_plus, !inject_Z_mult, !inject_Z_plus, !inject_Z_mult.
  field. intros H. unfold Qeq in H. simpl in H. lia.
Qed.

(** A sample between two coordinates of [0 .. n-1] is in [0 .. n-1]. *)
Lemma lerp_in_range mult i c1 c2 n :
  0 < mult -> 0 <= i <= mult -> 0 <= c1 < n -> 0 <= c2 < n ->
  0 <= py_int (lerp mult i c1 c2) < n.
Proof.
  intros Hm Hi H1 H2.
  rewrite (py_int_comp _ _ (lerp_eq mult i c1 c2 Hm)).
  rewrite py_int_div by nia. split.
  - apply Z.div_pos; nia.
  - apply Z.div_lt_upper_bound; nia.
Qed.

Lemma los_loop_spec (m : Map) mult pos1 pos2 todo steps :
  0 < mult -> is_in_map m pos1 = true -> is_in_map m pos2 = true ->
  (forall i, i ∈ todo -> 0 <= i <= mult) ->
  los_loop m mult pos1 pos2 todo steps =
  Ok (if forallb (see_through m) (los_sample mult pos1 pos2 <$> todo)
      then Some (steps ++ (los_sample mult pos1 pos2 <$> todo))
      else None).
Proof.
  intros Hm H1 H2. revert steps.
  induction todo as [|i todo IH]; intros steps Hall.
  - simpl. by rewrite app_nil_r.
  - cbn [los_loop fmap list_fmap forallb].
    destruct (los_sample mult pos1 pos2 i) as [x y] eqn:Hs.
    assert (Hr : in_range (tiles m) x y = true).
    { destruct pos1 as [x1 y1], pos2 as [x2 y2].
      unfold is_in_map, size in H1, H2.
      rewrite !andb_true_iff, !Z.leb_le, !Z.ltb_lt in H1, H2.
      unfold los_sample in Hs. simpl in Hs. injection Hs as <- <-.
      assert (0 <= i <= mult) by (apply Hall; left).
      pose proof (lerp_in_range mult i x1 x2 (arr_width (tiles m))).
      pose proof (lerp_in_range mult i y1 y2 (arr_height (tiles m))).
      unfold in_range. rewrite !andb_true_iff, !Z.leb_le, !Z.ltb_lt. lia. }
    unfold arr_get. rewrite Hr. cbn [mbind result_bind].
    unfold see_through at 1, tile_at. simpl.
    destruct (tile_in (arr_cells (tiles m) x y) SEE_THROUGH); [|done].
    simpl. rewrite IH by (intros j Hj; apply Hall; by right).
    by rewrite <- app_assoc.
Qed.

Lemma line_of_sight_spec (m : Map) (a b : pos) :
  is_in_map m a = true -> is_in_map m b = true ->
  line_of_sight m a b =
  Ok (if forallb (see_through m) (los_samples a b)
      then Some (los_samples a b) else None).
Proof.
  intros Ha Hb. unfold line_of_sight, los_samples.
  assert (Hd : 0 <= distance a b).
  { destruct a, b. unfold distance. lia. }
  rewrite los_loop_spec; [done|lia|done|done|].
  intros i Hi. unfold range in Hi. apply elem_of_seqZ in Hi. lia.
Qed.

Lemma length_los_samples (a b : pos) :
  length (los_samples a b) = Z.to_nat (distance a b + 1).
Proof.
  unfold los_samples. rewrite length_fmap, length_range. f_equal. lia.
Qed.

Lemma wall_not_see_through (m : Map) (p : pos) :
  is_wall m p = true -> see_through m p = false.
Proof.
  unfold is_wall, see_through. destruct (tile_at m p) as [[]|]; done.
Qed.

(** C4, as amended: for in-map positions [a] and [b], [line_of_sight(a, b)]
    samples [distance(a, b) + 1] tiles; it returns [None] whenever one of
    them is not see-through (neither floor nor an open doorway), so in
    particular whenever one is a wall, and otherwise returns the list of
    the [distance(a, b) + 1] sampled coordinates.  It never raises. *)
Theorem line_of_sight_see_through (m : Map) (a b : pos) :
  is_in_map m a = true -> is_in_map m b = true ->
  length (los_samples a b) = Z.to_nat (distance a b + 1) /\
  ((exists p, p ∈ los_samples a b /\ see_through m p = false) ->
     line_of_sight m a b = Ok None) /\
  ((exists p, p ∈ los_samples a b /\ is_wall m p = true) ->
     line_of_sight m a b = Ok None) /\
  ((forall p, p ∈ los_samples a b -> see_through m p = true) ->
     exists steps, line_of_sight m a b = Ok (Some steps) /\
       steps = los_samples a b /\
       length steps = Z.to_nat (distance a b + 1)).
Proof.
  intros Ha Hb. rewrite line_of_sight_spec by done.
  assert (Hopaque : (exists p, p ∈ los_samples a b /\ see_through m p = false) ->
            forallb (see_through m) (los_samples a b) = false).
  { intros (p & Hp & Hs). apply not_true_iff_false. intros Hall.
    rewrite forallb_forall in Hall. apply list_elem_of_In in Hp.
    specialize (Hall p Hp). congruence. }
  split; [apply length_los_samples|]. split; [|split].
  - intros H. by rewrite Hopaque.
  - intros (p & Hp & Hw). rewrite Hopaque; [done|].
    exists p. split; [done|]. by apply wall_not_see_through.
  - intros Hall.
    assert (Ht : forallb (see_through m) (los_samples a b) = true).
    { apply forallb_forall. intros p Hp. apply Hall. by apply list_elem_of_In. }
    rewrite Ht. eexists. split; [done|]. split; [done|].
    apply length_los_samples.
Qed.

Lemma line_of_sight_see_through_witness :
  let m := mkMap "m" (arr_make 3 3 (Terrain FLOOR)) ∅ ∅ ∅ ∅ ∅ ∅ ∅ in
  length (los_samples (0, 0) (2, 1)) = 3%nat.
Proof.
  intros m.
  apply (line_of_sight_see_through m (0, 0) (2, 1)); reflexivity.
Defined.

(** C4, as stated, fails: no tile sampled between the two ends of
    [rock_corridor] is a wall, yet the line of sight is [None]. *)
Lemma line_of_sight_rock_counterexample :
  is_in_map rock_corridor (0, 0) = true /\
  is_in_map rock_corridor (2, 0) = true /\
  (forall p, p ∈ los_samples (0, 0) (2, 0) -> is_wall rock_corridor p = false) /\
  ~ (exists steps, line_of_sight rock_corridor (0, 0) (2, 0) = Ok (Some steps)) /\
  line_of_sight rock_corridor (0, 0) (2, 0) = Ok None.
Proof.
  split; [reflexivity|]. split; [reflexivity|].
  assert (Hlos : line_of_sight rock_corridor (0, 0) (2, 0) = Ok None)
    by (vm_compute; reflexivity).
  split; [|split; [|exact Hlos]].
  - intros p Hp. apply list_elem_of_In in Hp.
    assert (Hall : forallb (fun p => negb (is_wall rock_corridor p))
                     (los_samples (0, 0) (2, 0)) = true) by (vm_compute; reflexivity).
    rewrite forallb_forall in Hall. specialize (Hall p Hp).
    by apply negb_true_iff in Hall.
  - intros [steps Hs]. rewrite Hlos in Hs. discriminate.
Qed.

(** ** Placing, removing and moving things *)

(** *** Consistency of the occupancy indices *)

Lemma indices_ok_empty w h fill : indices_ok (empty_map w h fill).
Proof.
  split; simpl; unfold stack_at; simpl.
  - intros a p. by rewrite !lookup_empty.
  - intros k a. rewrite !lookup_empty. split; [done|].
    intros [_ [? ?]]. done.
  - intros i p. rewrite !lookup_empty. simpl. split; [done|].
    intros Hi. by apply elem_of_nil in Hi.
  - intros p. rewrite lookup_empty. constructor.
Qed.

Lemma elem_of_sift (pred : pos -> bool) tiles p :
  p ∈ sift pred tiles <-> p ∈ tiles /\ pred p = true.
Proof.
  unfold sift. rewrite !list_elem_of_In, filter_In. reflexivity.
Qed.

Lemma ring_free_only (m : Map) c r shuffle fp in_map p :
  p ∈ _ring m c r true shuffle fp in_map -> free m p = true.
Proof. unfold _ring. intros Hp. by apply elem_of_sift in Hp as [_ ?]. Qed.

Lemma first_nearby_free `{RandomSource} (m : Map) c radii n p n' :
  first_nearby m c true radii n = Ok (p, n') -> free m p = true.
Proof.
  revert n. induction radii as [|rad radii IH]; intros n; cbn [first_nearby]; [done|].
  destruct (_ring m c rad true (Some (rng_shuffle n)) None true) as [|t ts] eqn:Hr.
  - apply IH.
  - intros [= <- <-]. apply (ring_free_only m c rad (Some (rng_shuffle n)) None true).
    rewrite Hr. left.
Qed.

Lemma free_unoccupied (m : Map) p : free m p = true -> _pos_to_a m !! p = None.
Proof.
  unfold free. intros H. apply andb_true_iff in H as [_ H].
  by apply bool_decide_eq_true in H.
Qed.

Lemma stack_remove_spec (i : Item) stack stack' :
  stack_remove i stack = Some stack' -> NoDup stack ->
  NoDup stack' /\ forall j, j ∈ stack' <-> j ∈ stack /\ j ≠ i.
Proof.
  revert stack'. induction stack as [|k stack IH]; intros stack'; simpl; [done|].
  intros Hrem Hnd. apply NoDup_cons in Hnd as [Hk Hnd].
  destruct (decide (k = i)) as [->|Hne].
  - injection Hrem as <-. split; [done|]. intros j.
    rewrite elem_of_cons. naive_solver.
  - destruct (stack_remove i stack) as [s|] eqn:Hs; [|done].
    injection Hrem as <-. destruct (IH s eq_refl Hnd) as [Hnd' Hiff].
    split.
    + apply NoDup_cons. split; [|done]. rewrite Hiff. naive_solver.
    + intros j. rewrite !elem_of_cons, Hiff. naive_solver.
Qed.

Lemma place_actor_ok (m : Map) (a : Actor) (p : pos) :
  indices_ok m -> _a_to_pos m !! a = None -> _pos_to_a m !! p = None ->
  indices_ok (set_actors m (<[actor_id a := a]> (_id_to_a m))
                (<[a := p]> (_a_to_pos m)) (<[p := a]> (_pos_to_a m))).
Proof.
  intros [Hinv Hids Hit Hnd] Ha Hp. unfold actor_id in *.
  split; simpl; [| |done|done].
  - intros a0 p0. rewrite !lookup_insert_Some. specialize (Hinv a0 p0).
    split.
    + intros [[<- <-]|[Hne Hl]]; [by left|]. right. split; [|by apply Hinv].
      intros <-. apply Hinv in Hl. congruence.
    + intros [[<- <-]|[Hne Hl]]; [by left|]. right. split; [|by apply Hinv].
      intros <-. apply Hinv in Hl. congruence.
  - intros k a0. rewrite lookup_insert_Some, Hids. unfold actor_id.
    destruct (decide (a = a0)) as [<-|Hne].
    + rewrite lookup_insert_eq. naive_solver.
    + rewrite lookup_insert_ne by done. naive_solver.
Qed.

Lemma place_ok `{RandomSource} (m : Map) thing pos_arg fallback n m' p n' :
  indices_ok m -> place m thing pos_arg fallback n = Ok (m', p, n') ->
  indices_ok m'.
Proof.
  intros Hok. unfold place.
  destruct (contains m thing) eqn:Hc; [done|].
  destruct (match pos_arg with
            | Some p0 => Ok (p0, n)
            | None => random_pos m true n
            end) as [[p0 n0]|] eqn:Hp0; cbn [mbind result_bind]; [|done].
  destruct thing as [a|i|d|]; simpl in Hc.
  - apply bool_decide_eq_false in Hc.
    assert (Ha : _a_to_pos m !! a = None).
    { destruct (_a_to_pos m !! a) eqn:E; [|done]. exfalso. apply Hc. eauto. }
    destruct (bool_decide (is_Some (_pos_to_a m !! p0))) eqn:Hocc.
    + destruct fallback; [|done]. unfold generator_bool, gen_next, _nearby_tiles.
      simpl.
      destruct (first_nearby m p0 true _ n0) as [[p1 n1]|] eqn:Hf; [|done].
      cbn [mbind result_bind]. intros [= <- <- <-].
      apply place_actor_ok; [done..|].
      apply free_unoccupied. eapply first_nearby_free; eauto.
    + cbn [mbind result_bind]. intros [= <- <- <-].
      apply place_actor_ok; [done..|].
      apply bool_decide_eq_false in Hocc.
      destruct (_pos_to_a m !! p0) eqn:E; [|done]. exfalso. apply Hocc. eauto.
  - apply bool_decide_eq_false in Hc.
    assert (Hi : _i_to_pos m !! i = None).
    { destruct (_i_to_pos m !! i) eqn:E; [|done]. exfalso. apply Hc. eauto. }
    intros [= <- <- <-]. destruct Hok as [Hinv Hids Hit Hnd].
    assert (Hfresh : forall q, i ∉ stack_at m q).
    { intros q Hq. apply Hit in Hq. congruence. }
    split; simpl; [done|done| |].
    + intros j q. unfold stack_at. simpl.
      rewrite lookup_insert_Some.
      destruct (decide (p0 = q)) as [<-|Hne].
      * rewrite lookup_insert_eq. simpl. rewrite elem_of_app, list_elem_of_singleton.
        fold (stack_at m p0). rewrite <- Hit.
        split; [intros [[<- _]|[? ?]]; auto|].
        intros [Hl| ->]; [|by left]. right. split; [congruence|done].
      * rewrite lookup_insert_ne by done. fold (stack_at m q). rewrite <- Hit.
        split; [intros [[<- ?]|[? ?]]; done|].
        intros Hl. right. split; [congruence|done].
    + intros q. unfold stack_at. simpl.
      destruct (decide (p0 = q)) as [<-|Hne].
      * rewrite lookup_insert_eq. simpl. fold (stack_at m p0).
        apply NoDup_app. split; [apply Hnd|]. split; [|apply NoDup_singleton].
        intros j Hj Hj'. apply list_elem_of_singleton in Hj' as ->.
        by apply (Hfresh p0).
      * rewrite lookup_insert_ne by done. apply Hnd.
  - intros [= <- <- <-]. destruct Hok. by split.
  - done.
Qed.

Lemma remove_ok (m : Map) thing m' :
  indices_ok m -> remove m thing = Ok m' -> indices_ok m'.
Proof.
  intros [Hinv Hids Hit Hnd]. unfold remove.
  destruct thing as [a|i|d|]; [| |done|done].
  - destruct (_a_to_pos m !! a) as [p|] eqn:Ha; [|done].
    destruct (_pos_to_a m !! p) as [a1|] eqn:Hp; [|done].
    destruct (_id_to_a m !! actor_id a) as [a2|] eqn:Hid; [|done].
    cbn [of_option mbind result_bind]. intros [= <-].
    split; simpl; [| |done|done].
    + intros a0 p0. rewrite !lookup_delete_Some.
      pose proof (proj1 (Hinv a p) Ha) as Hpa. specialize (Hinv a0 p0).
      split; intros [Hne Hl]; (split; [|by apply Hinv]).
      * intros <-. apply Hinv in Hl. congruence.
      * intros <-. apply Hinv in Hl. congruence.
    + intros k a0. rewrite lookup_delete_Some, Hids. unfold actor_id.
      destruct (decide (a = a0)) as [<-|Hne].
      * rewrite lookup_delete_eq. split; [naive_solver|].
        intros [_ [? ?]]. done.
      * rewrite lookup_delete_ne by done. naive_solver.
  - destruct (_i_to_pos m !! i) as [p|] eqn:Hi; [|done].
    destruct (stack_remove i (default [] (_pos_to_i m !! p))) as [stack|] eqn:Hs;
      [|done].
    cbn [of_option mbind result_bind]. intros [= <-].
    destruct (stack_remove_spec _ _ _ Hs (Hnd p)) as [Hnd' Hiff].
    split; simpl; [done|done| |].
    + intros j q. unfold stack_at. simpl. rewrite lookup_delete_Some.
      destruct (decide (p = q)) as [<-|Hne].
      * rewrite lookup_insert_eq. simpl. rewrite Hiff.
        fold (stack_at m p). rewrite <- Hit. naive_solver.
      * rewrite lookup_insert_ne by done. fold (stack_at m q). rewrite <- Hit.
        split; [naive_solver|]. intros Hl. split; [congruence|done].
    + intros q. unfold stack_at. simpl.
      destruct (decide (p = q)) as [<-|Hne].
      * by rewrite lookup_insert_eq.
      * rewrite lookup_insert_ne by done. apply Hnd.
Qed.

Lemma move_ok (m : Map) thing there m' :
  indices_ok m -> move_unoccupied m (Move thing there) ->
  move m thing there = Ok m' -> indices_ok m'.
Proof.
  intros [Hinv Hids Hit Hnd] Hfree. unfold move.
  destruct thing as [a|i|d|]; [| |done|done].
  - destruct (_a_to_pos m !! a) as [p|] eqn:Ha; [|done].
    destruct (_pos_to_a m !! p) as [a1|] eqn:Hp; [|done].
    cbn [of_option mbind result_bind]. intros [= <-].
    pose proof (proj1 (Hinv a p) Ha) as Hpa. simpl in Hfree.
    assert (Hthere : forall a0, _pos_to_a m !! there = Some a0 -> a0 = a).
    { intros a0 H0. destruct Hfree; congruence. }
    split; simpl; [| |done|done].
    + intros a0 p0. rewrite !lookup_insert_Some, lookup_delete_Some.
      specialize (Hinv a0 p0). split.
      * intros [[<- <-]|[Hne Hl]]; [by left|]. right.
        apply Hinv in Hl as Hl'.
        split; [intros <-; apply Hthere in Hl'; congruence|].
        split; [intros <-; congruence|done].
      * intros [[<- <-]|(Hne & Hne' & Hl)]; [by left|]. right.
        split; [|by apply Hinv]. intros <-. apply Hinv in Hl. congruence.
    + intros k a0. rewrite Hids.
      destruct (decide (a = a0)) as [<-|Hne].
      * rewrite lookup_insert_eq, Ha. naive_solver.
      * by rewrite lookup_insert_ne.
  - destruct (_i_to_pos m !! i); done.
Qed.

Lemma run_op_ok `{RandomSource} (st st' : Map * nat) o :
  indices_ok st.1 -> move_unoccupied st.1 o -> run_op st o = Ok st' ->
  indices_ok st'.1.
Proof.
  intros Hok Hfree. destruct o as [thing pos_arg fallback|thing|thing there]; simpl.
  - destruct (place st.1 thing pos_arg fallback st.2) as [[[m p] n]|] eqn:Hp; [|done].
    cbn [mbind result_bind]. intros [= <-]. simpl. eapply place_ok; eauto.
  - destruct (remove st.1 thing) as [m|] eqn:Hr; [|done].
    cbn [mbind result_bind]. intros [= <-]. simpl. eapply remove_ok; eauto.
  - destruct (move st.1 thing there) as [m|] eqn:Hm; [|done].
    cbn [mbind result_bind]. intros [= <-]. simpl. eapply move_ok; eauto.
Qed.

(** C3, as amended: after every sequence of successful [place], [remove]
    and [move] operations in which every move of an actor goes to a
    position that holds no other actor, the indices agree: the two actor
    indices are inverse of one another (each placed actor at exactly one
    position, at most one actor per position), the identifier index holds
    exactly the placed actors, and each item is recorded at the position
    whose stack holds it. *)
Theorem indices_preserved `{RandomSource} (ops : list op) (st st' : Map * nat) :
  indices_ok st.1 -> moves_unoccupied st ops -> run_ops st ops = Ok st' ->
  indices_ok st'.1.
Proof.
  revert st. induction ops as [|o ops IH]; intros st Hok Hfree; simpl.
  - by intros [= <-].
  - destruct Hfree as [Hfree Hrest].
    destruct (run_op st o) as [st1|] eqn:Ho; [|done].
    cbn [mbind result_bind]. intros Hrun. apply (IH st1); [|done|done].
    eapply run_op_ok; eauto.
Qed.

Lemma indices_preserved_witness :
  let ops := [Place (AnActor 1) (Some (0, 0)) false;
              Place (AnItem 7) (Some (0, 0)) false;
              Move (AnActor 1) (1, 0);
              Remove (AnItem 7);
              Place (AnActor 2) (Some (1, 0)) true] in
  let st := (empty_map 2 1 (Terrain FLOOR), 0%nat) in
  match run_ops (H := plain_rng) st ops with
  | Ok st' => indices_ok st'.1
  | Raise _ => False
  end.
Proof.
  intros ops st.
  destruct (run_ops (H := plain_rng) st ops) as [st'|e] eqn:E.
  - apply (indices_preserved (H := plain_rng) ops st st').
    + apply indices_ok_empty.
    + vm_compute. repeat split; auto.
    + exact E.
  - vm_compute in E. discriminate E.
Defined.

(** C3, as stated, fails: two actors are placed side by side and one is
    moved onto the other.  All three operations succeed, and afterwards
    both actors are recorded at the same position while the position index
    knows only one of them. *)
Lemma move_onto_actor_counterexample :
  let ops := [Place (AnActor 1) (Some (0, 0)) false;
              Place (AnActor 2) (Some (1, 0)) false;
              Move (AnActor 1) (1, 0)] in
  exists m' n',
    run_ops (H := plain_rng) (empty_map 2 1 (Terrain FLOOR), 0%nat) ops = Ok (m', n') /\
    _a_to_pos m' !! 1%positive = Some (1, 0) /\
    _a_to_pos m' !! 2%positive = Some (1, 0) /\
    _pos_to_a m' !! (1, 0) = Some 1%positive /\
    ~ indices_ok m'.
Proof.
  intros ops.
  exists (mkMap "map" (arr_make 2 1 (Terrain FLOOR))
            (<[2%positive := 2%positive]> (<[1%positive := 1%positive]> ∅))
            (<[1%positive := (1, 0)]> (<[2%positive := (1, 0)]> ∅))
            (<[(1, 0) := 1%positive]> ∅) ∅ ∅ ∅ ∅), 0%nat.
  split; [vm_compute; reflexivity|].
  split; [reflexivity|]. split; [reflexivity|]. split; [reflexivity|].
  intros [Hinv _ _ _]. simpl in Hinv.
  assert (H2 : (<[1%positive := (1, 0)]> (<[2%positive := (1, 0)]> ∅) : gmap Actor pos)
               !! 2%positive = Some (1, 0)) by reflexivity.
  apply Hinv in H2. vm_compute in H2. discriminate H2.
Qed.

(** ** Placing on an occupied position *)

(** Without [fallback], placing an actor that is not on the map onto an
    occupied position fails with the conflict error. *)
Lemma place_conflict `{RandomSource} (m : Map) (a : Actor) (p : pos) (n : nat) :
  contains m (AnActor a) = false -> is_Some (_pos_to_a m !! p) ->
  place m (AnActor a) (Some p) false n = Raise Conflict.
Proof.
  intros Hc Hp. unfold place. rewrite Hc. cbn [mbind result_bind].
  by rewrite bool_decide_eq_true_2.
Qed.

Lemma first_nearby_never_MapFull `{RandomSource} (m : Map) p free_only radii n :
  first_nearby m p free_only radii n <> Raise MapFull.
Proof.
  revert n. induction radii as [|r radii IH]; intros n; cbn [first_nearby]; [done|].
  destruct (_ring m p r free_only _ None true); [apply IH|done].
Qed.

(** [random_pos] and [place] never raise the "map is full" error: the
    test that guards it is always true. *)
Lemma random_pos_never_MapFull `{RandomSource} (m : Map) free_only n :
  random_pos m free_only n <> Raise MapFull.
Proof.
  unfold random_pos.
  assert (Ha : forall k last n0,
            random_attempts m free_only k last n0 <> Raise MapFull).
  { induction k as [|k IH]; intros last n0; simpl; [done|].
    unfold randrange.
    destruct (0 <? arr_width (tiles m)); cbn [mbind result_bind]; [|done].
    destruct (0 <? arr_height (tiles m)); cbn [mbind result_bind]; [|done].
    destruct free_only; [|done].
    destruct (free m _); [done|apply IH]. }
  destruct (random_attempts m free_only 5 (0, 0) n) as [[[found last] n0]|e] eqn:E;
    cbn [mbind result_bind].
  - destruct found; [done|]. unfold generator_bool, gen_next. simpl.
    apply first_nearby_never_MapFull.
  - intros [= ->]. by apply (Ha 5%nat (0, 0) n).
Qed.

Lemma place_never_MapFull `{RandomSource} (m : Map) thing pos_arg fallback n :
  place m thing pos_arg fallback n <> Raise MapFull.
Proof.
  unfold place. destruct (contains m thing); [done|].
  destruct (match pos_arg with
            | Some p0 => Ok (p0, n)
            | None => random_pos m true n
            end) as [[p0 n0]|e] eqn:Hp0; cbn [mbind result_bind].
  - destruct thing as [a|i|d|]; [|done..].
    destruct (bool_decide (is_Some (_pos_to_a m !! p0))); [|done].
    destruct fallback; [|done]. unfold generator_bool, gen_next. simpl.
    pose proof (first_nearby_never_MapFull m p0 true
      (range 1 (Z.max (arr_width (tiles m)) (arr_height (tiles m)))) n0) as Hf.
    destruct (first_nearby m p0 true _ n0) as [[p1 n1]|e]; [done|].
    cbn [mbind result_bind]. congruence.
  - destruct pos_arg; [done|]. intros [= ->].
    by apply (random_pos_never_MapFull m true n).
Qed.

(** C2: on a map whose every tile is occupied, [place] with
    [fallback=True] onto an occupied position does not fail with the
    "map is full" error: it raises [StopIteration]. *)
Theorem place_fallback_full_map :
  is_Some (_pos_to_a full_map !! (0, 0)) /\
  (forall p, is_in_map full_map p = true -> is_Some (_pos_to_a full_map !! p)) /\
  place (H := plain_rng) full_map (AnActor 2) (Some (0, 0)) true 0 = Raise StopIteration /\
  exn_class StopIteration <> exn_class MapFull.
Proof.
  split; [by eexists|]. split; [|split; [reflexivity|done]].
  intros [x y] Hin. unfold is_in_map in Hin. simpl in Hin.
  rewrite !andb_true_iff, !Z.leb_le, !Z.ltb_lt in Hin.
  assert (x = 0) as -> by lia. assert (y = 0) as -> by lia. by eexists.
Qed.

Lemma free_in_map (m : Map) p : free m p = true -> is_in_map m p = true.
Proof.
  unfold free, walkable. rewrite !andb_true_iff. tauto.
Qed.

(** The free tiles of a shuffled ring are the free tiles at that distance. *)
Lemma elem_of_ring_free `{RandomSource} (m : Map) c r n p :
  1 <= r ->
  p ∈ _ring m c r true (Some (rng_shuffle n)) None true <->
  distance c p = r /\ free m p = true.
Proof.
  intros Hr. unfold _ring. rewrite elem_of_sift, rng_shuffle_spec, elem_of_sift.
  rewrite elem_of_ring_coords by done. split; [tauto|].
  intros [? Hf]. pose proof (free_in_map _ _ Hf). tauto.
Qed.

(** Going through the radii [a, a+1, ...] when no free tile is nearer than
    [a]: the outcome is a nearest free tile, or [StopIteration] when no
    free tile is within the radii. *)
Lemma first_nearby_seq `{RandomSource} (m : Map) p (len : nat) a n :
  1 <= a -> (forall q, free m q = true -> a <= distance p q) ->
  match first_nearby m p true (seqZ a (Z.of_nat len)) n with
  | Ok (t, _) =>
      free m t = true /\ forall q, free m q = true -> distance p t <= distance p q
  | Raise e =>
      e = StopIteration /\ forall q, free m q = true -> a + Z.of_nat len <= distance p q
  end.
Proof.
  revert a n. induction len as [|len IH]; intros a n Ha Hnear.
  - simpl. split; [done|]. intros q Hq. specialize (Hnear q Hq). lia.
  - rewrite seqZ_cons by lia. cbn [first_nearby].
    destruct (_ring m p a true (Some (rng_shuffle n)) None true) as [|t ts] eqn:Hr.
    + replace (Z.pred (Z.of_nat (S len))) with (Z.of_nat len) by lia.
      specialize (IH (Z.succ a) (S n)).
      destruct (first_nearby m p true (seqZ (Z.succ a) (Z.of_nat len)) (S n))
        as [[t n']|e].
      * apply IH; [lia|]. intros q Hq. specialize (Hnear q Hq).
        assert (distance p q <> a); [|lia].
        intros Hd. assert (Hin : q ∈ _ring m p a true (Some (rng_shuffle n)) None true)
          by (by apply elem_of_ring_free).
        rewrite Hr in Hin. by apply elem_of_nil in Hin.
      * destruct IH as [-> IH]; [lia| |].
        { intros q Hq. specialize (Hnear q Hq).
          assert (distance p q <> a); [|lia].
          intros Hd. assert (Hin : q ∈ _ring m p a true (Some (rng_shuffle n)) None true)
            by (by apply elem_of_ring_free).
          rewrite Hr in Hin. by apply elem_of_nil in Hin. }
        split; [done|]. intros q Hq. specialize (IH q Hq). lia.
    + assert (Hin : t ∈ _ring m p a true (Some (rng_shuffle n)) None true)
        by (rewrite Hr; left).
      apply elem_of_ring_free in Hin as [Hd Hf]; [|done].
      split; [done|]. intros q Hq. specialize (Hnear q Hq). lia.
Qed.

Lemma distance_in_map (m : Map) p q :
  is_in_map m p = true -> is_in_map m q = true ->
  distance p q <= Z.max (arr_width (tiles m)) (arr_height (tiles m)) - 1.
Proof.
  destruct p as [x y], q as [x' y']. unfold is_in_map, size, distance.
  rewrite !andb_true_iff, !Z.leb_le, !Z.ltb_lt. lia.
Qed.

(** With [fallback], placing an actor onto an occupied position of the map
    puts it on a free tile that is nearest to that position, when the map
    has a free tile; and raises [StopIteration] when it has none. *)
Lemma place_fallback `{RandomSource} (m : Map) (a : Actor) (p : pos) (n : nat) :
  contains m (AnActor a) = false -> is_Some (_pos_to_a m !! p) ->
  is_in_map m p = true ->
  match place m (AnActor a) (Some p) true n with
  | Ok (m', t, _) =>
      free m t = true /\
      (forall q, free m q = true -> distance p t <= distance p q) /\
      find m' (AnActor a) = Some t /\ _pos_to_a m' !! t = Some a
  | Raise e => e = StopIteration /\ forall q, free m q = false
  end.
Proof.
  intros Hc Hp Hin. unfold place. rewrite Hc. cbn [mbind result_bind].
  rewrite bool_decide_eq_true_2 by done.
  unfold generator_bool, gen_next, _nearby_tiles, range. simpl.
  set (N := Z.max (arr_width (tiles m)) (arr_height (tiles m))).
  assert (HN : 1 <= N).
  { destruct p as [x y]. unfold is_in_map, size in Hin. subst N.
    rewrite !andb_true_iff, !Z.leb_le, !Z.ltb_lt in Hin. lia. }
  assert (Hnear : forall q, free m q = true -> 1 <= distance p q).
  { intros q Hq. apply free_unoccupied in Hq.
    assert (p <> q) by (intros ->; rewrite Hq in Hp; by destruct Hp).
    destruct p as [x y], q as [x' y']. unfold distance.
    assert (x <> x' \/ y <> y') by (destruct (decide (x = x')); [right|left]; congruence).
    lia. }
  pose proof (first_nearby_seq m p (Z.to_nat (N - 1)) 1 n ltac:(lia) Hnear) as Hs.
  rewrite Z2Nat.id in Hs by lia.
  destruct (first_nearby m p true (seqZ 1 (N - 1)) n) as [[t n']|e].
  - cbn [mbind result_bind]. destruct Hs as [Hf Hmin].
    split; [done|]. split; [done|]. simpl.
    by rewrite !lookup_insert_eq.
  - cbn [mbind result_bind]. destruct Hs as [-> Hfar]. split; [done|].
    intros q. destruct (free m q) eqn:Hq; [|done]. exfalso.
    specialize (Hfar q Hq).
    pose proof (distance_in_map m p q Hin (free_in_map _ _ Hq)). lia.
Qed.

(** ** Pickling a map: the hero is left out *)

Lemma Map_eta (m : Map) :
  mkMap (id m) (tiles m) (_id_to_a m) (_a_to_pos m) (_pos_to_a m) (_i_to_pos m)
        (_pos_to_i m) (_pos_to_m m) (_map_to_conn m) = m.
Proof. by destruct m. Qed.

(** C9: a map whose indices agree is pickled while the hero stands at
    [p].  The pickled state records [p] and holds the hero in none of its
    occupancy indices; restoring it while no hero is set raises; restoring
    it once the hero is set puts the hero back at exactly [p], with indices
    that agree: the restored map is the map that was pickled. *)
Theorem pickle_hero `{RandomSource} (m : Map) (h : Actor) (p : pos) (n : nat) :
  indices_ok m -> _a_to_pos m !! h = Some p ->
  exists state,
    getstate (Some h) m = Ok state /\
    state_hero_pos state = Some p /\
    _id_to_a (state_dict state) !! actor_id h = None /\
    _a_to_pos (state_dict state) !! h = None /\
    (forall q, _pos_to_a (state_dict state) !! q <> Some h) /\
    (forall k, _id_to_a (state_dict state) !! k <> Some h) /\
    setstate None state n = Raise HeroNotRestored /\
    exists m',
      setstate (Some h) state n = Ok m' /\
      find m' (AnActor h) = Some p /\
      _pos_to_a m' !! p = Some h /\
      indices_ok m' /\
      m' = m.
Proof.
  intros Hok Ha. pose proof Hok as [Hinv Hids Hit Hnd].
  pose proof (proj1 (Hinv h p) Ha) as Hp.
  assert (Hid : _id_to_a m !! actor_id h = Some h) by (apply Hids; eauto).
  unfold getstate. rewrite Ha, Hid, Hp. cbn [of_option mbind result_bind].
  eexists. split; [reflexivity|]. cbn [state_hero_pos state_dict].
  split; [done|]. simpl.
  split; [apply lookup_delete_eq|]. split; [apply lookup_delete_eq|].
  split.
  { intros q Hq. apply lookup_delete_Some in Hq as [Hne Hq].
    apply Hinv in Hq. congruence. }
  split.
  { intros k Hk. apply lookup_delete_Some in Hk as [Hne Hk].
    apply Hids in Hk as [-> _]. done. }
  split; [reflexivity|].
  unfold setstate. cbn [state_hero_pos state_dict mbind result_bind hero_thing].
  unfold place. cbn [contains set_actors _a_to_pos _pos_to_a _id_to_a].
  rewrite lookup_delete_eq.
  rewrite (bool_decide_eq_false_2 (is_Some None)) by (by intros [? ?]).
  cbn [mbind result_bind]. rewrite lookup_delete_eq.
  rewrite (bool_decide_eq_false_2 (is_Some None)) by (by intros [? ?]).
  cbn [mbind result_bind].
  assert (Hm : set_actors
             (set_actors m (delete (actor_id h) (_id_to_a m))
                (delete h (_a_to_pos m)) (delete p (_pos_to_a m)))
             (<[actor_id h:=h]> (delete (actor_id h) (_id_to_a m)))
             (<[h:=p]> (delete h (_a_to_pos m)))
             (<[p:=h]> (delete p (_pos_to_a m))) = m).
  { unfold set_actors. simpl. rewrite !insert_delete_eq.
    rewrite !insert_id by done. apply Map_eta. }
  rewrite Hm. eexists. split; [reflexivity|]. simpl. done.
Qed.

Lemma pickle_hero_witness :
  let m := mkMap "map" (arr_make 2 2 (Terrain FLOOR))
             (<[1%positive := 1%positive]> ∅) (<[1%positive := (1, 1)]> ∅)
             (<[(1, 1) := 1%positive]> ∅) ∅ ∅ ∅ ∅ in
  exists state : State, getstate (Some 1%positive) m = Ok state.
Proof.
  intros m.
  assert (Hok : indices_ok m).
  { assert (Hplace : place (H := plain_rng) (empty_map 2 2 (Terrain FLOOR))
                       (AnActor 1) (Some (1, 1)) false 0 = Ok (m, (1, 1), 0%nat))
      by (vm_compute; reflexivity).
    exact (place_ok (H := plain_rng) _ _ _ _ _ _ _ _
             (indices_ok_empty 2 2 (Terrain FLOOR)) Hplace). }
  destruct (pickle_hero (H := plain_rng) m 1%positive (1, 1) 0 Hok eq_refl)
    as (state & Hstate & _).
  by exists state.
Defined.

(** ** Links between maps *)

Lemma getitem_setitem (m m' : Map) p t :
  setitem m p t = Ok m' ->
  getitem m' p = Ok t /\ id m' = id m /\ _map_to_conn m' = _map_to_conn m.
Proof.
  destruct p as [x y]. unfold setitem, getitem, arr_set, arr_get.
  destruct (in_range (tiles m) x y) eqn:Hr; [|done].
  cbn [mbind result_bind]. intros [= <-]. simpl.
  unfold in_range in *. simpl. rewrite Hr. by rewrite !Z.eqb_refl.
Qed.

Lemma set_dest_map_spec (m : Map) p mapid c :
  getitem m p = Ok (Conn c) ->
  exists m', set_dest_map m p mapid = Ok m' /\
    getitem m' p = Ok (Conn (mkConnector (char c) (Some mapid))) /\
    id m' = id m /\ _map_to_conn m' = _map_to_conn m.
Proof.
  intros Hg. unfold set_dest_map. rewrite Hg. cbn [mbind result_bind].
  destruct p as [x y]. unfold getitem, arr_get in Hg.
  destruct (in_range (tiles m) x y) eqn:Hr; [|done].
  destruct (setitem m (x, y) (Conn (mkConnector (char c) (Some mapid))))
    as [m'|e] eqn:Hs.
  - exists m'. split; [done|]. by apply getitem_setitem in Hs.
  - unfold setitem, arr_set in Hs. by rewrite Hr in Hs.
Qed.

(** Setting the destination of one connector leaves connectors where they
    are. *)
Lemma set_dest_map_other (m m' : Map) (p q : pos) (mapid : string) :
  set_dest_map m p mapid = Ok m' -> is_connector_at m q -> is_connector_at m' q.
Proof.
  unfold set_dest_map. destruct (getitem m p) as [[ty|c]|e] eqn:Hg;
    cbn [mbind result_bind]; [done| |done].
  destruct p as [x y], q as [qx qy].
  unfold setitem, arr_set. destruct (in_range (tiles m) x y) eqn:Hr; [|done].
  cbn [mbind result_bind]. intros [= <-] [c' Hc'].
  unfold is_connector_at, getitem, arr_get, in_range in *. simpl.
  destruct ((0 <=? qx) && (qx <? arr_width (tiles m)) && (0 <=? qy)
            && (qy <? arr_height (tiles m))); [|done].
  destruct ((qx =? x) && (qy =? y)); eauto.
Qed.

(** C6: [p1] on map [A] and [p2] on another map [B] both hold connectors.
    Then [A.connect(p1, B, p2)] succeeds, and afterwards
    [A.arrival_pos(B.id) == p1], [B.arrival_pos(A.id) == p2], and the
    destination of either end tile is the identifier of the other map.
    When one of the two end tiles is not a connector, [connect] fails. *)
Theorem connect_symmetric (w : world) (A B : positive) (p1 p2 : pos) :
  A <> B ->
  (is_connector_at (w A) p1 -> is_connector_at (w B) p2 ->
   exists w',
     connect w A p1 B p2 = Ok w' /\
     id (w' A) = id (w A) /\ id (w' B) = id (w B) /\
     arrival_pos (w' A) (id (w' B)) = Ok p1 /\
     arrival_pos (w' B) (id (w' A)) = Ok p2 /\
     dest_map_at (w' A) p1 = Some (id (w' B)) /\
     dest_map_at (w' B) p2 = Some (id (w' A))) /\
  (~ (is_connector_at (w A) p1 /\ is_connector_at (w B) p2) ->
   exists e, connect w A p1 B p2 = Raise e /\
     (is_in_map (w A) p1 = true -> is_in_map (w B) p2 = true -> e = NotAConnector)).
Proof.
  intros Hne. split.
  - intros [c1 H1] [c2 H2]. unfold connect. rewrite H1, H2.
    cbn [mbind result_bind isinstance_Connector negb].
    repeat first [rewrite fn_lookup_insert
                 |rewrite (fn_lookup_insert_ne _ A B) by done
                 |rewrite (fn_lookup_insert_ne _ B A) by done].
    destruct (set_dest_map_spec
                (set_conn (w A) (<[id (w B):=p1]> (_map_to_conn (w A))))
                p1 (id (w B)) c1 H1) as (mA & -> & HgA & HidA & HconnA).
    cbn [mbind result_bind].
    repeat first [rewrite fn_lookup_insert
                 |rewrite (fn_lookup_insert_ne _ A B) by done
                 |rewrite (fn_lookup_insert_ne _ B A) by done].
    destruct (set_dest_map_spec
                (set_conn (w B) (<[id mA:=p2]> (_map_to_conn (w B))))
                p2 (id mA) c2 H2) as (mB & -> & HgB & HidB & HconnB).
    cbn [mbind result_bind]. eexists. split; [reflexivity|].
    repeat first [rewrite fn_lookup_insert
                 |rewrite (fn_lookup_insert_ne _ A B) by done
                 |rewrite (fn_lookup_insert_ne _ B A) by done].
    unfold arrival_pos, dest_map_at. rewrite HgA, HgB, HconnA, HconnB, HidA, HidB.
    simpl. rewrite !lookup_insert_eq. done.
  - intros Hnot. unfold connect.
    destruct (getitem (w A) p1) as [t1|e1] eqn:H1; cbn [mbind result_bind].
    2:{ exists e1. split; [done|]. intros HinA _. exfalso.
        destruct p1 as [x y]. unfold getitem, arr_get, in_range in H1.
        unfold is_in_map, size in HinA. by rewrite HinA in H1. }
    destruct (getitem (w B) p2) as [t2|e2] eqn:H2; cbn [mbind result_bind].
    2:{ exists e2. split; [done|]. intros _ HinB. exfalso.
        destruct p2 as [x y]. unfold getitem, arr_get, in_range in H2.
        unfold is_in_map, size in HinB. by rewrite HinB in H2. }
    destruct t1 as [ty1|c1]; simpl; [by eexists|].
    destruct t2 as [ty2|c2]; simpl; [by eexists|].
    exfalso. apply Hnot. split; by eexists.
Qed.

Lemma connect_symmetric_witness :
  let stairs := fun x y : Z => Conn (mkConnector ">" None) in
  let w : world := fun r =>
    mkMap (if decide (r = 1%positive) then "A" else "B")
      (mkArray 2 2 stairs) ∅ ∅ ∅ ∅ ∅ ∅ ∅ in
  exists w', connect w 1 (0, 0) 2 (1, 1) = Ok w'.
Proof.
  intros stairs w.
  destruct (connect_symmetric w 1 2 (0, 0) (1, 1) ltac:(done)) as [Hok _].
  destruct Hok as (w' & Hw' & _).
  - by eexists.
  - by eexists.
  - by exists w'.
Defined.

(** When a map is connected to itself, the second end takes the place of
    the first: the arrival position for the map's own identifier is
    [pos2]. *)
Lemma connect_same_map (w : world) (A : positive) (p1 p2 : pos) :
  is_connector_at (w A) p1 -> is_connector_at (w A) p2 ->
  exists w', connect w A p1 A p2 = Ok w' /\
    arrival_pos (w' A) (id (w' A)) = Ok p2.
Proof.
  intros [c1 H1] H2. unfold connect. rewrite H1.
  destruct H2 as [c2 H2]. rewrite H2.
  cbn [mbind result_bind isinstance_Connector negb]. cbv zeta.
  repeat rewrite fn_lookup_insert.
  match goal with
  | |- context [set_dest_map ?m ?p ?i ≫= _] =>
      destruct (set_dest_map_spec m p i c1 H1)
        as (mA & HmA & HgA & HidA & HconnA);
      rewrite HmA
  end.
  cbn [mbind result_bind]. repeat rewrite fn_lookup_insert.
  assert (H2' : is_connector_at mA p2).
  { eapply set_dest_map_other; [exact HmA|]. by exists c2. }
  destruct H2' as [c2' H2'].
  match goal with
  | |- context [set_dest_map ?m ?p ?i ≫= _] =>
      destruct (set_dest_map_spec m p i c2' H2')
        as (mB & HmB & HgB & HidB & HconnB);
      rewrite HmB
  end.
  cbn [mbind result_bind].
  eexists. split; [reflexivity|]. rewrite fn_lookup_insert.
  unfold arrival_pos. rewrite HconnB, HidB. simpl. by rewrite lookup_insert_eq.
Qed.

(** ** Path finding *)

(** *** Two searches on a small maze *)

Example path_bend :
  path bend (0, 0) (0, 2) = Some (Ok (Some [(0, 0); (1, 0); (2, 1); (1, 2); (0, 2)])).
Proof. vm_compute. reflexivity. Qed.

Example dist_metrics_bend :
  match dist_metrics bend (0, 0) None None with
  | Some (Ok mt) => dists mt !! (0, 2) = Some 4 /\ furthest_dist mt = 4
  | _ => False
  end.
Proof. vm_compute. split; reflexivity. Qed.

(** *** Facts about the queue *)

Lemma entry_min_fst (a b : entry) : (entry_min a b).1 = Z.min a.1 b.1.
Proof.
  unfold entry_min, entry_leb.
  destruct (Z.ltb_spec a.1 b.1); simpl; [lia|].
  destruct (Z.eqb_spec a.1 b.1); simpl; [|lia].
  destruct (_ || _); lia.
Qed.

Lemma foldl_entry_min_spec (q : list entry) (e : entry) :
  foldl entry_min e q ∈ e :: q /\
  forall e', e' ∈ e :: q -> (foldl entry_min e q).1 <= e'.1.
Proof.
  revert e. induction q as [|x q IH]; intros e; simpl.
  - split; [left|]. intros e' He'. apply list_elem_of_singleton in He' as ->. lia.
  - destruct (IH (entry_min e x)) as [Hin Hle]. split.
    + apply elem_of_cons in Hin as [Hin|Hin].
      * rewrite Hin. unfold entry_min. destruct (entry_leb e x).
        -- left.
        -- right; left.
      * right; by right.
    + intros e' He'.
      assert (Hm : (foldl entry_min (entry_min e x) q).1 <= (entry_min e x).1)
        by (apply Hle; left).
      rewrite entry_min_fst in Hm.
      apply elem_of_cons in He' as [->|He']; [lia|].
      apply elem_of_cons in He' as [->|He']; [lia|].
      apply Hle. by right.
Qed.

Lemma remove_first_perm (e : entry) (q : list entry) :
  e ∈ q -> q ≡ₚ e :: remove_first e q.
Proof.
  induction q as [|x q IH]; intros Hin; [by apply elem_of_nil in Hin|].
  simpl. destruct (decide (x = e)) as [->|Hne]; [done|].
  apply elem_of_cons in Hin as [->|Hin]; [done|].
  rewrite (IH Hin) at 1. apply perm_swap.
Qed.

Lemma pop_spec (q q' : list entry) (e : entry) :
  pop q = Ok (e, q') ->
  q ≡ₚ e :: q' /\ forall e', e' ∈ q -> e.1 <= e'.1.
Proof.
  destruct q as [|x q]; [done|]. unfold pop. intros [= <- <-].
  destruct (foldl_entry_min_spec q x) as [Hin Hle].
  split; [by apply remove_first_perm|done].
Qed.

Lemma pop_nonempty (q : list entry) :
  q <> [] -> exists e q', pop q = Ok (e, q').
Proof. destruct q; [done|]. intros _. unfold pop. eauto. Qed.

Lemma pop_empty (q : list entry) e : pop q = Raise e -> q = [] /\ e = IndexError.
Proof. destruct q; [|done]. by intros [= <-]. Qed.

(** What the inner loop of [Map.path] returns: an open position whose
    entry is least among the entries of open positions; the entries of the
    other open positions stay in the queue.  It raises only when the queue
    holds no open position. *)
Lemma pop_open_spec (turns : nat) (q : list entry) (open : gset pos) :
  (length q <= turns)%nat ->
  match pop_open turns q open with
  | Ok (cur, q') =>
      cur ∈ open /\
      (exists f, (f, cur) ∈ q /\ forall e, e ∈ q -> e.2 ∈ open -> f <= e.1) /\
      (forall e, e ∈ q' -> e ∈ q) /\
      (forall e, e ∈ q -> e.2 ∈ open -> e.2 <> cur -> e ∈ q')
  | Raise e => e = IndexError /\ forall e', e' ∈ q -> e'.2 ∉ open
  end.
Proof.
  revert q. induction turns as [|turns IH]; intros q Hlen.
  - destruct q; [|simpl in Hlen; lia]. simpl. split; [done|].
    intros e' He'. by apply elem_of_nil in He'.
  - destruct (decide (q = [])) as [->|Hne].
    { simpl. split; [done|]. intros e' He'. by apply elem_of_nil in He'. }
    cbn [pop_open]. destruct (pop_nonempty q) as (e & q1 & Hpop); [done|].
    rewrite Hpop. cbn [mbind result_bind].
    apply pop_spec in Hpop as [Hperm Hleast].
    assert (Hmem : forall e', e' ∈ q <-> e' = e \/ e' ∈ q1).
    { intros e'. rewrite Hperm. apply elem_of_cons. }
    destruct (decide (e.2 ∈ open)) as [Hopen|Hclosed].
    + split; [done|]. split; [|split].
      * exists e.1. split.
        -- apply Hmem. left. by destruct e.
        -- intros e' He' _. by apply Hleast.
      * intros e' He'. apply Hmem. by right.
      * intros e' He' _ Hcur. apply Hmem in He' as [->|He']; done.
    + assert (Hlen1 : (length q1 <= turns)%nat).
      { apply Permutation_length in Hperm. simpl in Hperm. lia. }
      specialize (IH q1 Hlen1).
      destruct (pop_open turns q1 open) as [[cur q']|err].
      * destruct IH as (Hcur & (f & Hf & Hmin) & Hsub & Hkeep).
        split; [done|]. split; [|split].
        -- exists f. split; [apply Hmem; by right|].
           intros e' He' Ho. apply Hmem in He' as [->|He']; [done|by apply Hmin].
        -- intros e' He'. apply Hmem. right. by apply Hsub.
        -- intros e' He' Ho Hne'. apply Hmem in He' as [->|He']; [done|].
           by apply Hkeep.
      * destruct IH as [-> Hnone]. split; [done|].
        intros e' He'. apply Hmem in He' as [->|He']; [done|by apply Hnone].
Qed.

(** *** Walks on the grid *)

Lemma walk_snoc (m : Map) ok p k q q' :
  walk m ok p k q -> edge m ok q q' -> walk m ok p (S k) q'.
Proof.
  induction 1 as [p|p p' k q He Hw IH]; intros Hq.
  - eapply walk_step; [done|constructor].
  - eapply walk_step; [done|by apply IH].
Qed.

Lemma walk_ext (m : Map) ok ok' p k q :
  (forall x, ok x = ok' x) -> walk m ok p k q -> walk m ok' p k q.
Proof.
  intros Hext. induction 1 as [p|p p' k q (Hd & Hin & Hok) Hw IH]; [constructor|].
  eapply walk_step; [|done]. split; [done|]. split; [done|]. by rewrite <- Hext.
Qed.

Lemma elem_of_adjacents (m : Map) p q :
  q ∈ adjacents m p false None None true <->
  distance p q = 1 /\ is_in_map m q = true.
Proof.
  unfold adjacents, _ring. rewrite elem_of_sift, elem_of_ring_coords by lia.
  reflexivity.
Qed.

Lemma distance_triangle (p q r : pos) :
  distance p r <= distance p q + distance q r.
Proof. destruct p, q, r. unfold distance. lia. Qed.

Lemma distance_nonneg (p q : pos) : 0 <= distance p q.
Proof. destruct p, q. unfold distance. lia. Qed.

Lemma distance_refl (p : pos) : distance p p = 0.
Proof. destruct p. unfold distance. lia. Qed.

(** The grid distance never exceeds the number of steps of a walk. *)
Lemma walk_distance (m : Map) ok p k q :
  walk m ok p k q -> distance p q <= Z.of_nat k.
Proof.
  induction 1 as [p|p p' k q (Hd & _) Hw IH].
  - rewrite distance_refl. lia.
  - pose proof (distance_triangle p p' q). lia.
Qed.

(** *** Correctness of [Map.path] *)

Lemma in_map_iter_coords (m : Map) (p : pos) :
  is_in_map m p = true -> p ∈ iter_coords m.
Proof.
  destruct p as [x y]. unfold is_in_map, iter_coords, size.
  rewrite !andb_true_iff, !Z.leb_le, !Z.ltb_lt. intros Hin.
  apply list_elem_of_bind. exists x. split.
  - apply list_elem_of_bind. exists y. split; [left|].
    unfold range. apply elem_of_seqZ. lia.
  - unfold range. apply elem_of_seqZ. lia.
Qed.

Lemma in_map_nodes (m : Map) (start p : pos) :
  is_in_map m p = true -> p ∈ nodes m start.
Proof.
  intros Hin. unfold nodes. apply elem_of_union. right.
  apply elem_of_list_to_set. by apply in_map_iter_coords.
Qed.

Lemma start_nodes (m : Map) (start : pos) : start ∈ nodes m start.
Proof. unfold nodes. apply elem_of_union. left. by apply elem_of_singleton. Qed.

Lemma sum_over_ext (f f' : pos -> Z) l :
  (forall q, q ∈ l -> f' q = f q) -> sum_over f' l = sum_over f l.
Proof.
  induction l as [|x l IH]; intros H; [done|]. simpl.
  rewrite H by left. rewrite IH; [done|]. intros q Hq. apply H. by right.
Qed.

Lemma sum_over_update (f f' : pos -> Z) l p :
  NoDup l -> p ∈ l -> (forall q, q <> p -> f' q = f q) ->
  sum_over f' l = sum_over f l - f p + f' p.
Proof.
  induction l as [|x l IH]; intros Hnd Hin Hext; [by apply elem_of_nil in Hin|].
  apply NoDup_cons in Hnd as [Hx Hnd]. simpl.
  destruct (decide (x = p)) as [->|Hne].
  - rewrite (sum_over_ext f f' l); [lia|].
    intros q Hq. apply Hext. intros ->. done.
  - apply elem_of_cons in Hin as [->|Hin]; [done|].
    rewrite IH by done. rewrite (Hext x) by done. lia.
Qed.

Lemma sum_over_bounds (f : pos -> Z) l b :
  (forall q, q ∈ l -> 0 <= f q <= b) ->
  0 <= sum_over f l <= b * Z.of_nat (length l).
Proof.
  induction l as [|x l IH]; intros H; simpl; [lia|].
  assert (0 <= f x <= b) by (apply H; left).
  assert (0 <= sum_over f l <= b * Z.of_nat (length l)).
  { apply IH. intros q Hq. apply H. by right. }
  lia.
Qed.

Lemma astar_inv_mono (m : Map) (start goal : pos) (R R' : pos -> pos -> Prop) st :
  (forall p q, R' p q -> R p q) ->
  astar_inv m start goal R st -> astar_inv m start goal R' st.
Proof.
  intros HR [H1 H2 H3 H4 H5 H6 H7 H8 H9 H10 H11].
  split; try done. intros p g q Hg Hp He Hr. eapply H7; eauto.
Qed.

Lemma came_from_size (m : Map) (start goal : pos) R st :
  astar_inv m start goal R st ->
  Z.of_nat (base.size (came_from st)) + 1 <= Z.of_nat (base.size (nodes m start)).
Proof.
  intros Hinv.
  assert (Hsub : dom (came_from st) ⊆ nodes m start ∖ {[start]}).
  { intros p Hp. apply elem_of_dom in Hp as [q Hq].
    apply (inv_came _ _ _ _ _ Hinv) in Hq as (_ & gp & gq & Hgp & Hgq & Hle).
    apply elem_of_difference. split.
    - eapply inv_nodes; eauto.
    - intros Hs. apply elem_of_singleton in Hs as ->.
      rewrite (inv_start _ _ _ _ _ Hinv) in Hgp. injection Hgp as <-.
      pose proof (inv_nonneg _ _ _ _ _ Hinv _ _ Hgq). lia. }
  apply subseteq_size in Hsub. rewrite size_dom in Hsub.
  rewrite size_difference in Hsub.
  2:{ intros x Hx. apply elem_of_singleton in Hx as ->. apply start_nodes. }
  rewrite size_singleton in Hsub.
  assert (0 < base.size (nodes m start))%nat.
  { destruct (decide (base.size (nodes m start) = 0%nat)) as [E|]; [|lia].
    apply size_empty_inv in E. pose proof (start_nodes m start) as Hs.
    rewrite E in Hs. by apply elem_of_empty in Hs. }
  lia.
Qed.

Lemma potential_insert (m : Map) (start : pos) (g : gmap pos Z) (p : pos) (v : Z) :
  p ∈ nodes m start ->
  potential m start (<[p := v]> g) =
  potential m start g - default (pot_bound m start) (g !! p) + v.
Proof.
  intros Hp. unfold potential.
  rewrite (sum_over_update (fun q => default (pot_bound m start) (g !! q))
             (fun q => default (pot_bound m start) (<[p:=v]> g !! q)) _ p).
  - by rewrite lookup_insert_eq.
  - apply NoDup_elements.
  - by apply elem_of_elements.
  - intros q Hq. by rewrite lookup_insert_ne.
Qed.

Lemma potential_nonneg (m : Map) (start : pos) (g : gmap pos Z) :
  (forall p v, g !! p = Some v -> 0 <= v) -> 0 <= potential m start g.
Proof.
  intros Hg. unfold potential.
  assert (Hs : forall l, 0 <= sum_over (fun p => default (pot_bound m start) (g !! p)) l).
  { induction l as [|x l IH]; simpl; [lia|].
    assert (0 <= default (pot_bound m start) (g !! x)); [|lia].
    destruct (g !! x) as [v|] eqn:E; simpl; [eauto|]. unfold pot_bound. lia. }
  apply Hs.
Qed.

Lemma astar_inv_extend (m : Map) (start goal : pos) (R R' : pos -> pos -> Prop) st :
  astar_inv m start goal R st ->
  (forall p g q, g_scores st !! p = Some g -> p ∉ open_set st ->
     edge m (passable m goal) p q -> R' p q -> ~ R p q ->
     exists g', g_scores st !! q = Some g' /\ g' <= g + 1) ->
  (forall p q, Decision (R p q)) ->
  astar_inv m start goal R' st.
Proof.
  intros [H1 H2 H3 H4 H5 H6 H7 H8 H9 H10 H11] Hnew Hdec.
  split; try done. intros p g q Hg Hp He Hr.
  destruct (Hdec p q) as [HR|HR]; [eapply H7; eauto|eapply Hnew; eauto].
Qed.

Lemma size_add_open (p : pos) (open : gset pos) :
  Z.of_nat (base.size ({[p]} ∪ open)) <= Z.of_nat (base.size open) + 1.
Proof.
  rewrite size_union_alt, size_singleton.
  assert (base.size (open ∖ {[p]}) <= base.size open)%nat; [|lia].
  apply subseteq_size. set_solver.
Qed.

Lemma relax_spec (m : Map) (start goal cur : pos) (seen : pos -> Prop)
    (st : AStar) (p : pos) (gc : Z) :
  (forall q, Decision (seen q)) ->
  astar_inv m start goal (mid_required cur seen) st ->
  cur ∉ open_set st -> g_scores st !! cur = Some gc ->
  distance cur p = 1 -> is_in_map m p = true ->
  exists st', relax m goal cur st p = Ok st' /\
    astar_inv m start goal (mid_required cur (fun q => q = p \/ seen q)) st' /\
    (cur ∉ open_set st') /\ g_scores st' !! cur = Some gc /\
    measure m start st' <= measure m start st.
Proof.
  intros Hdec Hinv Hcur Hgc Hd Hin.
  assert (Hdec' : forall p' q, Decision (mid_required cur seen p' q)).
  { intros p' q. unfold mid_required. apply _. }
  assert (Hnep : cur <> p).
  { intros ->. rewrite distance_refl in Hd. lia. }
  unfold relax. fold (passable m goal p).
  replace (negb (free m p) && negb (bool_decide (p = goal)))
    with (negb (passable m goal p))
    by (unfold passable; by rewrite negb_orb).
  destruct (passable m goal p) eqn:Hok; simpl.
  2:{ exists st. split; [done|]. split; [|done].
      eapply astar_inv_extend; [exact Hinv| |done].
      intros p' g q Hg Hp' (_ & _ & Hokq) [Hne|[->|Hs]] Hnr.
      - exfalso. apply Hnr. by left.
      - congruence.
      - exfalso. apply Hnr. by right. }
  rewrite Hgc. cbn [of_option mbind result_bind]. rewrite Hd.
  destruct (g_scores st !! p) as [gp|] eqn:Hgp.
  - destruct (Z.ltb_spec (gc + 1) gp) as [Hlt|Hge].
    2:{ exists st. split; [done|]. split; [|done].
        eapply astar_inv_extend; [exact Hinv| |done].
        intros p' g q Hg Hp' He [Hne|[->|Hs]] Hnr.
        - exfalso. apply Hnr. by left.
        - destruct (decide (p' = cur)) as [->|Hne].
          + exists gp. split; [done|]. rewrite Hgc in Hg. injection Hg as <-. lia.
          + exfalso. apply Hnr. by left.
        - exfalso. apply Hnr. by right. }
    (* the score of [p] improves *)
    pose proof Hinv as [H1 H2 H3 H4 H5 H6 H7 H8 H9 H10 H11].
    assert (Hps : p <> start).
    { intros ->. rewrite H1 in Hgp. injection Hgp as <-.
      pose proof (H2 _ _ Hgc). lia. }
    eexists. split; [reflexivity|]. split; [|split; [|split]].
    + split; simpl.
      * by rewrite lookup_insert_ne.
      * intros p' g. rewrite lookup_insert_Some.
        intros [[<- <-]|[_ Hg]]; [|eauto]. pose proof (H2 _ _ Hgc). lia.
      * intros p' g. rewrite lookup_insert_Some.
        intros [[<- <-]|[_ Hg]]; [|eauto].
        destruct (H3 _ _ Hgc) as [k Hk]. exists (S k).
        eapply walk_snoc; [exact Hk|]. by split.
      * intros p' g. rewrite lookup_insert_Some.
        intros [[<- <-]|[_ Hg]]; [|eauto]. by apply in_map_nodes.
      * intros p' Hp'. unfold push.
        destruct (decide (p' = p)) as [->|Hne].
        -- exists (gc + 1). rewrite lookup_insert_eq. split; [done|]. left.
        -- rewrite lookup_insert_ne by done.
           apply elem_of_union in Hp' as [Hp'|Hp'];
             [apply elem_of_singleton in Hp'; done|].
           destruct (H5 _ Hp') as (g & Hg & Hq). exists g. split; [done|]. by right.
      * intros f p' Hfp. unfold push in Hfp.
        apply elem_of_cons in Hfp as [[= -> ->]|Hfp].
        -- exists (gc + 1). rewrite lookup_insert_eq. split; [done|]. lia.
        -- destruct (H6 _ _ Hfp) as (g & Hg & Hle).
           destruct (decide (p' = p)) as [->|Hne].
           ++ exists (gc + 1). rewrite lookup_insert_eq. split; [done|].
              rewrite Hgp in Hg. injection Hg as <-. lia.
           ++ exists g. by rewrite lookup_insert_ne.
      * intros p' g q Hg Hp' He Hr.
        assert (Hp'p : p' <> p).
        { intros ->. apply Hp'. apply elem_of_union. left. by apply elem_of_singleton. }
        assert (Hp'o : p' ∉ open_set st).
        { intros Ho. apply Hp'. apply elem_of_union. by right. }
        rewrite lookup_insert_ne in Hg by done.
        destruct (decide (q = p)) as [->|Hqp].
        -- exists (gc + 1). rewrite lookup_insert_eq. split; [done|].
           destruct (decide (p' = cur)) as [->|Hne].
           ++ rewrite Hgc in Hg. injection Hg as <-. lia.
           ++ destruct (H7 p' g p Hg Hp'o He) as (g' & Hg' & Hle); [by left|].
              rewrite Hgp in Hg'. injection Hg' as <-. lia.
        -- rewrite lookup_insert_ne by done.
           apply (H7 p' g q Hg Hp'o He).
           destruct Hr as [Hne|[->|Hs]]; [by left|done|by right].
      * intros p' q. rewrite lookup_insert_Some.
        intros [[<- <-]|[Hne Hcf]].
        -- split; [by split|]. exists (gc + 1), gc.
           rewrite lookup_insert_eq, lookup_insert_ne by done. split; [done|].
           split; [done|lia].
        -- destruct (H8 _ _ Hcf) as (He & gp' & gq & Hgp' & Hgq & Hle).
           split; [done|]. rewrite lookup_insert_ne by done.
           destruct (decide (q = p)) as [->|Hqp].
           ++ exists gp', (gc + 1). rewrite lookup_insert_eq.
              split; [done|]. split; [done|].
              rewrite Hgp in Hgq. injection Hgq as <-. lia.
           ++ exists gp', gq. by rewrite lookup_insert_ne.
      * intros p' g Hne. rewrite lookup_insert_Some.
        intros [[<- <-]|[Hne' Hg]].
        -- rewrite lookup_insert_eq. eauto.
        -- rewrite lookup_insert_ne by done. eauto.
      * intros p' g. rewrite lookup_insert_Some.
        assert (Hsz : (base.size (came_from st)
                       <= base.size (<[p:=cur]> (came_from st)))%nat).
        { destruct (came_from st !! p) eqn:E.
          - rewrite map_size_insert_Some by eauto. lia.
          - rewrite map_size_insert_None by done. lia. }
        intros [[<- <-]|[Hne Hg]].
        -- destruct (came_from st !! p) as [c|] eqn:E.
           ++ pose proof (H10 _ _ Hgp). lia.
           ++ rewrite map_size_insert_None by done. pose proof (H10 _ _ Hgc). lia.
        -- pose proof (H10 _ _ Hg). lia.
      * destruct H11 as [Hg|Hg].
        -- left. apply elem_of_union. by right.
        -- destruct (decide (goal = p)) as [->|Hne].
           ++ left. apply elem_of_union. left. by apply elem_of_singleton.
           ++ right. by rewrite lookup_insert_ne.
    + simpl. intros Ho. apply elem_of_union in Ho as [Ho|Ho]; [|done].
      apply elem_of_singleton in Ho. done.
    + simpl. by rewrite lookup_insert_ne.
    + unfold measure. simpl. rewrite potential_insert by (by apply in_map_nodes).
      rewrite Hgp. simpl. pose proof (size_add_open p (open_set st)). lia.
  - (* [p] gets its first score *)
    pose proof Hinv as [H1 H2 H3 H4 H5 H6 H7 H8 H9 H10 H11].
    assert (Hps : p <> start) by (intros ->; congruence).
    assert (Hcfp : came_from st !! p = None).
    { destruct (came_from st !! p) as [c|] eqn:E; [|done].
      apply H8 in E as (_ & gp' & _ & Hgp' & _). congruence. }
    eexists. split; [reflexivity|]. split; [|split; [|split]].
    + split; simpl.
      * by rewrite lookup_insert_ne.
      * intros p' g. rewrite lookup_insert_Some.
        intros [[<- <-]|[_ Hg]]; [|eauto]. pose proof (H2 _ _ Hgc). lia.
      * intros p' g. rewrite lookup_insert_Some.
        intros [[<- <-]|[_ Hg]]; [|eauto].
        destruct (H3 _ _ Hgc) as [k Hk]. exists (S k).
        eapply walk_snoc; [exact Hk|]. by split.
      * intros p' g. rewrite lookup_insert_Some.
        intros [[<- <-]|[_ Hg]]; [|eauto]. by apply in_map_nodes.
      * intros p' Hp'. unfold push.
        destruct (decide (p' = p)) as [->|Hne].
        -- exists (gc + 1). rewrite lookup_insert_eq. split; [done|]. left.
        -- rewrite lookup_insert_ne by done.
           apply elem_of_union in Hp' as [Hp'|Hp'];
             [apply elem_of_singleton in Hp'; done|].
           destruct (H5 _ Hp') as (g & Hg & Hq). exists g. split; [done|]. by right.
      * intros f p' Hfp. unfold push in Hfp.
        apply elem_of_cons in Hfp as [[= -> ->]|Hfp].
        -- exists (gc + 1). rewrite lookup_insert_eq. split; [done|]. lia.
        -- destruct (H6 _ _ Hfp) as (g & Hg & Hle).
           destruct (decide (p' = p)) as [->|Hne]; [congruence|].
           exists g. by rewrite lookup_insert_ne.
      * intros p' g q Hg Hp' He Hr.
        assert (Hp'p : p' <> p).
        { intros ->. apply Hp'. apply elem_of_union. left. by apply elem_of_singleton. }
        assert (Hp'o : p' ∉ open_set st).
        { intros Ho. apply Hp'. apply elem_of_union. by right. }
        rewrite lookup_insert_ne in Hg by done.
        destruct (decide (q = p)) as [->|Hqp].
        -- exists (gc + 1). rewrite lookup_insert_eq. split; [done|].
           destruct (decide (p' = cur)) as [->|Hne].
           ++ rewrite Hgc in Hg. injection Hg as <-. lia.
           ++ destruct (H7 p' g p Hg Hp'o He) as (g' & Hg' & Hle); [by left|].
              congruence.
        -- rewrite lookup_insert_ne by done.
           apply (H7 p' g q Hg Hp'o He).
           destruct Hr as [Hne|[->|Hs]]; [by left|done|by right].
      * intros p' q. rewrite lookup_insert_Some.
        intros [[<- <-]|[Hne Hcf]].
        -- split; [by split|]. exists (gc + 1), gc.
           rewrite lookup_insert_eq, lookup_insert_ne by done. split; [done|].
           split; [done|lia].
        -- destruct (H8 _ _ Hcf) as (He & gp' & gq & Hgp' & Hgq & Hle).
           split; [done|]. rewrite lookup_insert_ne by done.
           destruct (decide (q = p)) as [->|Hqp]; [congruence|].
           exists gp', gq. by rewrite lookup_insert_ne.
      * intros p' g Hne. rewrite lookup_insert_Some.
        intros [[<- <-]|[Hne' Hg]].
        -- rewrite lookup_insert_eq. eauto.
        -- rewrite lookup_insert_ne by done. eauto.
      * intros p' g. rewrite lookup_insert_Some.
        rewrite map_size_insert_None by done.
        intros [[<- <-]|[Hne Hg]].
        -- pose proof (H10 _ _ Hgc). lia.
        -- pose proof (H10 _ _ Hg). lia.
      * destruct H11 as [Hg|Hg].
        -- left. apply elem_of_union. by right.
        -- destruct (decide (goal = p)) as [->|Hne].
           ++ left. apply elem_of_union. left. by apply elem_of_singleton.
           ++ right. by rewrite lookup_insert_ne.
    + simpl. intros Ho. apply elem_of_union in Ho as [Ho|Ho]; [|done].
      apply elem_of_singleton in Ho. done.
    + simpl. by rewrite lookup_insert_ne.
    + unfold measure. simpl. rewrite potential_insert by (by apply in_map_nodes).
      rewrite Hgp. simpl. pose proof (size_add_open p (open_set st)).
      pose proof (came_from_size _ _ _ _ _ Hinv).
      pose proof (H10 _ _ Hgc). unfold pot_bound. lia.
Qed.

Lemma astar_inv_weaken (m : Map) (start goal : pos) (R R' : pos -> pos -> Prop) st :
  (forall p q, edge m (passable m goal) p q -> R' p q -> R p q) ->
  astar_inv m start goal R st -> astar_inv m start goal R' st.
Proof.
  intros HR [H1 H2 H3 H4 H5 H6 H7 H8 H9 H10 H11].
  split; try done. intros p g q Hg Hp He Hr. eapply H7; eauto.
Qed.

Lemma relax_all_spec (m : Map) (start goal cur : pos) (gc : Z) (l seen : list pos)
    (st : AStar) :
  astar_inv m start goal (mid_required cur (fun q => q ∈ seen)) st ->
  cur ∉ open_set st -> g_scores st !! cur = Some gc ->
  (forall p, p ∈ l -> distance cur p = 1 /\ is_in_map m p = true) ->
  exists st', for_each (relax m goal cur) l st = Ok st' /\
    astar_inv m start goal (mid_required cur (fun q => q ∈ l \/ q ∈ seen)) st' /\
    measure m start st' <= measure m start st.
Proof.
  revert seen st. induction l as [|p l IH]; intros seen st Hinv Hcur Hgc Hadj.
  - exists st. split; [done|]. split; [|lia].
    eapply astar_inv_weaken; [|exact Hinv].
    intros p q _ [Hne|[Hq|Hq]]; [by left|by apply elem_of_nil in Hq|by right].
  - destruct (Hadj p) as [Hd Hin]; [left|].
    destruct (relax_spec m start goal cur (fun q => q ∈ seen) st p gc)
      as (st1 & Hrel & Hinv1 & Hcur1 & Hgc1 & Hm1); [apply _|done..|].
    destruct (IH (p :: seen) st1) as (st' & Hfor & Hinv' & Hm').
    + eapply astar_inv_weaken; [|exact Hinv1].
      intros p' q _ [Hne|Hq]; [by left|]. right.
      by apply elem_of_cons in Hq.
    + done.
    + done.
    + intros q Hq. apply Hadj. by right.
    + exists st'. cbn [for_each]. rewrite Hrel. cbn [mbind result_bind].
      split; [done|]. split; [|lia].
      eapply astar_inv_weaken; [|exact Hinv'].
      intros p' q _ [Hne|[Hq|Hq]]; [by left| |].
      * right. apply elem_of_cons in Hq as [->|Hq]; [right; left|by left].
      * right. right. by right.
Qed.

(** When the goal is popped, its score is at most the length of any walk
    to it. *)
Lemma astar_optimal (m : Map) (start goal : pos) (st : AStar) (f : Z) :
  astar_inv m start goal (fun _ _ => True) st ->
  (f, goal) ∈ open_q st ->
  (forall e, e ∈ open_q st -> e.2 ∈ open_set st -> f <= e.1) ->
  forall p j gp, walk m (passable m goal) p j goal -> g_scores st !! p = Some gp ->
    exists gg, g_scores st !! goal = Some gg /\ gg <= gp + Z.of_nat j.
Proof.
  intros Hinv Hf Hmin p j gp Hw.
  destruct (inv_queue _ _ _ _ _ Hinv _ _ Hf) as (gg & Hgg & Hle).
  rewrite distance_refl in Hle.
  assert (Hgen : forall ok t, walk m ok p j t -> ok = passable m goal -> t = goal ->
            forall gp, g_scores st !! p = Some gp ->
              exists gg, g_scores st !! goal = Some gg /\ gg <= gp + Z.of_nat j);
    [|by eauto].
  clear gp Hw. intros ok t Hw.
  induction Hw as [p|p p' k q He Hw IH]; intros -> -> gp Hgp.
  - exists gp. split; [done|lia].
  - destruct (decide (p ∈ open_set st)) as [Hopen|Hclosed].
    + destruct (inv_open _ _ _ _ _ Hinv _ Hopen) as (g & Hg & Hq).
      rewrite Hgp in Hg. injection Hg as <-.
      specialize (Hmin _ Hq Hopen). simpl in Hmin.
      pose proof (walk_distance _ _ _ _ _ (walk_step _ _ _ _ _ _ He Hw)).
      exists gg. split; [done|]. lia.
    + destruct (inv_closed _ _ _ _ _ Hinv _ _ _ Hgp Hclosed He I) as (g' & Hg' & Hle').
      destruct (IH eq_refl eq_refl g' Hg') as (gg' & Hgg' & Hle'').
      exists gg'. split; [done|]. lia.
Qed.

(** Following [came_from] back from a scored position reaches the start,
    along a walk. *)
Lemma rebuild_loop_spec (m : Map) (start goal : pos) R (st : AStar) :
  astar_inv m start goal R st ->
  forall (fuel : nat) (cur : pos) (steps : list pos) (j : nat) (gc : Z),
    g_scores st !! cur = Some gc -> gc <= Z.of_nat fuel ->
    walk m (passable m goal) cur j goal -> length steps = S j ->
    exists l j', rebuild_loop fuel start cur (came_from st) steps = Some (Ok l) /\
      length l = S j' /\ walk m (passable m goal) start j' goal /\
      Z.of_nat j' <= Z.of_nat j + gc.
Proof.
  intros Hinv. induction fuel as [|fuel IH]; intros cur steps j gc Hgc Hfuel Hw Hlen.
  - cbn [rebuild_loop]. destruct (decide (cur = start)) as [->|Hne].
    + exists (reverse steps), j. rewrite length_reverse.
      pose proof (inv_nonneg _ _ _ _ _ Hinv _ _ Hgc). repeat split; [done..|lia].
    + exfalso. destruct (inv_came_dom _ _ _ _ _ Hinv _ _ Hne Hgc) as [q Hq].
      apply (inv_came _ _ _ _ _ Hinv) in Hq as (_ & gp & gq & Hgp & Hgq & Hle).
      pose proof (inv_nonneg _ _ _ _ _ Hinv _ _ Hgq). rewrite Hgc in Hgp.
      injection Hgp as <-. lia.
  - cbn [rebuild_loop]. destruct (decide (cur = start)) as [->|Hne].
    + exists (reverse steps), j. rewrite length_reverse.
      pose proof (inv_nonneg _ _ _ _ _ Hinv _ _ Hgc). repeat split; [done..|lia].
    + destruct (inv_came_dom _ _ _ _ _ Hinv _ _ Hne Hgc) as [q Hq]. rewrite Hq.
      apply (inv_came _ _ _ _ _ Hinv) in Hq as (He & gp & gq & Hgp & Hgq & Hle).
      rewrite Hgc in Hgp. injection Hgp as <-.
      destruct (IH q (steps ++ [q]) (S j) gq Hgq) as (l & j' & Hl & Hlen' & Hw' & Hj').
      * lia.
      * by eapply walk_step.
      * rewrite length_app. simpl. lia.
      * exists l, j'. repeat split; [done..|lia].
Qed.

Lemma measure_nonneg (m : Map) (start goal : pos) R st :
  astar_inv m start goal R st -> 0 <= measure m start st.
Proof.
  intros Hinv. unfold measure.
  pose proof (potential_nonneg m start (g_scores st) (inv_nonneg _ _ _ _ _ Hinv)).
  lia.
Qed.

(** No position with a score is left open: the scored positions are closed
    under steps. *)
Lemma astar_closed_walk (m : Map) (start goal : pos) (st : AStar) :
  astar_inv m start goal (fun _ _ => True) st -> open_set st = ∅ ->
  forall p k q, walk m (passable m goal) p k q ->
    is_Some (g_scores st !! p) -> is_Some (g_scores st !! q).
Proof.
  intros Hinv Hopen p k q Hw.
  assert (Hgen : forall ok, walk m ok p k q -> ok = passable m goal ->
            is_Some (g_scores st !! p) -> is_Some (g_scores st !! q));
    [|by eauto].
  clear Hw. intros ok Hw.
  induction Hw as [p|p p' k q He Hw IH]; [done|].
  intros -> [g Hg]. apply IH; [done|].
  destruct (inv_closed _ _ _ _ _ Hinv p g p' Hg) as (g' & Hg' & _); [|done|done|eauto].
  rewrite Hopen. apply not_elem_of_empty.
Qed.

Lemma path_loop_spec (m : Map) (start goal : pos) (fuel : nat) (st : AStar) :
  astar_inv m start goal (fun _ _ => True) st ->
  measure m start st < Z.of_nat fuel ->
  exists r, path_loop fuel m start goal st = Some (Ok r) /\
    search_outcome m (passable m goal) start goal r.
Proof.
  revert st. induction fuel as [|fuel IH]; intros st Hinv Hfuel.
  { pose proof (measure_nonneg _ _ _ _ _ Hinv). lia. }
  cbn [path_loop]. destruct (decide (open_set st = ∅)) as [Hempty|Hopen].
  - exists None. split; [done|]. intros k Hw.
    destruct (astar_closed_walk m start goal st Hinv Hempty _ _ _ Hw) as [g Hg].
    { rewrite (inv_start _ _ _ _ _ Hinv). eauto. }
    destruct (inv_goal _ _ _ _ _ Hinv) as [Hgo|Hgn]; [|congruence].
    rewrite Hempty in Hgo. by apply not_elem_of_empty in Hgo.
  - pose proof (pop_open_spec (length (open_q st)) (open_q st) (open_set st)
                  (le_n _)) as Hpop.
    destruct (pop_open (length (open_q st)) (open_q st) (open_set st))
      as [[cur q']|e].
    2:{ exfalso. destruct Hpop as [_ Hnone].
        apply set_choose_L in Hopen as [p Hp].
        destruct (inv_open _ _ _ _ _ Hinv _ Hp) as (g & _ & Hq).
        by apply (Hnone _ Hq). }
    destruct Hpop as (Hcur & (f & Hf & Hmin) & Hsub & Hkeep).
    destruct (inv_open _ _ _ _ _ Hinv _ Hcur) as (gc & Hgc & _).
    destruct (decide (cur = goal)) as [->|Hne].
    + cbn [came_from]. unfold _rebuild_path.
      destruct (rebuild_loop_spec m start goal _ st Hinv
                  (base.size (came_from st)) goal [goal] 0%nat gc Hgc)
        as (l & j & Hl & Hlen & Hw & Hj).
      * eapply inv_bound; eauto.
      * constructor.
      * done.
      * rewrite Hl. exists (Some l). split; [done|]. exists j.
        split; [done|]. split; [done|]. intros k Hk.
        destruct (astar_optimal m start goal st f Hinv Hf Hmin start k 0 Hk
                    (inv_start _ _ _ _ _ Hinv)) as (gg & Hgg & Hle).
        rewrite Hgc in Hgg. injection Hgg as <-. lia.
    + set (st1 := mkAStar (came_from st) q' (open_set st ∖ {[cur]})
                    (g_scores st) (f_scores st)).
      assert (Hinv1 : astar_inv m start goal
                        (mid_required cur (fun q => q ∈ ([] : list pos))) st1).
      { pose proof Hinv as [H1 H2 H3 H4 H5 H6 H7 H8 H9 H10 H11].
        split; simpl; try done.
        - intros p Hp. apply elem_of_difference in Hp as [Hp Hpc].
          destruct (H5 _ Hp) as (g & Hg & Hq). exists g. split; [done|].
          apply Hkeep; [done|done|]. simpl. intros ->. apply Hpc.
          by apply elem_of_singleton.
        - intros f' p Hp. apply H6. by apply Hsub.
        - intros p g q Hg Hp He [Hpc|Hq]; [|by apply elem_of_nil in Hq].
          eapply H7; eauto. intros Ho. apply Hp. apply elem_of_difference.
          split; [done|]. intros Hs. by apply elem_of_singleton in Hs.
        - destruct H11 as [Hg|Hg]; [|by right]. left.
          apply elem_of_difference. split; [done|]. intros Hs.
          apply elem_of_singleton in Hs. congruence. }
      assert (Hm1 : measure m start st1 = measure m start st - 1).
      { unfold measure. simpl. rewrite size_difference.
        2:{ intros x Hx. by apply elem_of_singleton in Hx as ->. }
        rewrite size_singleton.
        assert (0 < base.size (open_set st))%nat; [|lia].
        destruct (decide (base.size (open_set st) = 0%nat)) as [E|]; [|lia].
        apply size_empty_inv in E. apply leibniz_equiv in E. done. }
      destruct (relax_all_spec m start goal cur gc
                  (adjacents m cur false None None true) [] st1 Hinv1)
        as (st' & Hfor & Hinv' & Hm').
      * simpl. intros Ho. apply elem_of_difference in Ho as [_ Ho].
        apply Ho. by apply elem_of_singleton.
      * done.
      * intros p Hp. by apply elem_of_adjacents.
      * fold st1. rewrite Hfor. apply IH; [|lia].
        eapply astar_inv_weaken; [|exact Hinv'].
        intros p q (Hd & Hin & _) _.
        destruct (decide (p = cur)) as [->|Hpc]; [|by left].
        right. left. by apply elem_of_adjacents.
Qed.

Lemma astar_inv_init (m : Map) (start goal : pos) :
  astar_inv m start goal (fun _ _ => True)
    (mkAStar ∅ (push [] (distance start goal, start)) {[start]}
       {[start := 0]} {[start := distance start goal]}).
Proof.
  split; simpl.
  - apply lookup_singleton_eq.
  - intros p g Hg. apply lookup_singleton_Some in Hg as [_ <-]. lia.
  - intros p g Hg. apply lookup_singleton_Some in Hg as [<- _].
    exists 0%nat. constructor.
  - intros p g Hg. apply lookup_singleton_Some in Hg as [<- _]. apply start_nodes.
  - intros p Hp. apply elem_of_singleton in Hp as ->. exists 0.
    rewrite lookup_singleton_eq. split; [done|]. left.
  - intros f p Hp. apply list_elem_of_singleton in Hp as [= -> ->].
    exists 0. rewrite lookup_singleton_eq. split; [done|lia].
  - intros p g q Hg Hp. apply lookup_singleton_Some in Hg as [<- _].
    exfalso. apply Hp. by apply elem_of_singleton.
  - intros p q Hq. by rewrite lookup_empty in Hq.
  - intros p g Hne Hg. apply lookup_singleton_Some in Hg as [<- _]. done.
  - intros p g Hg. apply lookup_singleton_Some in Hg as [_ <-]. lia.
  - destruct (decide (goal = start)) as [->|Hne].
    + left. by apply elem_of_singleton.
    + right. by apply lookup_singleton_ne.
Qed.

Lemma path_spec (m : Map) (start goal : pos) :
  exists r, path m start goal = Some (Ok r) /\
    search_outcome m (passable m goal) start goal r.
Proof.
  unfold path. apply path_loop_spec; [apply astar_inv_init|].
  unfold measure. cbn [g_scores open_set]. rewrite size_singleton.
  assert (Hb : potential m start {[start := 0]}
               <= pot_bound m start * Z.of_nat (base.size (nodes m start))).
  { unfold potential. apply sum_over_bounds. intros q _.
    destruct (({[start := 0]} : gmap pos Z) !! q) as [v|] eqn:E; simpl.
    - apply lookup_singleton_Some in E as [_ <-]. unfold pot_bound. lia.
    - unfold pot_bound. lia. }
  unfold path_fuel, pot_bound in *.
  rewrite Nat2Z.inj_add, !Nat2Z.inj_mul, Nat2Z.inj_add. simpl Z.of_nat.
  generalize dependent (Z.of_nat (base.size (nodes m start))). intros n Hn. lia.
Qed.

(** *** Correctness of [Map.dist_metrics] *)

Lemma dists_label (dist : Z) (cur : pos) (st : Dijkstra) (p : pos) :
  dists (metrics (label dist cur st p)) =
  if match dists (metrics st) !! p with
     | None => true
     | Some d => dist + 1 <? d
     end
  then <[p := dist + 1]> (dists (metrics st))
  else dists (metrics st).
Proof.
  unfold label. simpl.
  destruct (match dists (metrics st) !! p with
            | Some d => dist + 1 <? d
            | None => true
            end); [|done].
  unfold add_edge, metrics_set. simpl.
  by destruct (furthest_dist (metrics st) <? dist + 1).
Qed.

Lemma label_spec (m : Map) (start cur : pos) (dist : Z) (st : Dijkstra) (p : pos) :
  bfs_inv m start (fun x => x = cur) st ->
  dists (metrics st) !! cur = Some dist -> 0 <= dist ->
  walk m (free m) start (Z.to_nat dist) cur ->
  (forall e, e ∈ bfs_q st -> dist <= e.1) ->
  (forall q d, q ∈ done st -> dists (metrics st) !! q = Some d -> d <= dist) ->
  edge m (free m) cur p ->
  let st' := label dist cur st p in
  bfs_inv m start (fun x => x = cur) st' /\
  dists (metrics st') !! cur = Some dist /\
  (forall e, e ∈ bfs_q st' -> dist <= e.1) /\
  done st' = done st /\
  bfs_q st' = (dist + 1, p) :: bfs_q st /\
  (exists d', dists (metrics st') !! p = Some d' /\ d' <= dist + 1) /\
  (forall q d, dists (metrics st) !! q = Some d ->
     exists d', dists (metrics st') !! q = Some d' /\ d' <= d).
Proof.
  intros Hinv Hcur Hdist Hwalk Hmin Hdone He st'.
  pose proof Hinv as [B1 B2 B3 B4 B5 B6 B7 B8].
  assert (Hpc : p <> cur).
  { intros ->. destruct He as [Hd _]. rewrite distance_refl in Hd. lia. }
  assert (Hwp : walk m (free m) start (Z.to_nat (dist + 1)) p).
  { replace (Z.to_nat (dist + 1)) with (S (Z.to_nat dist)) by lia.
    by eapply walk_snoc. }
  assert (Hq' : bfs_q st' = (dist + 1, p) :: bfs_q st) by done.
  assert (Hd' : done st' = done st) by done.
  pose proof (dists_label dist cur st p) as Hl. fold st' in Hl.
  destruct (dists (metrics st) !! p) as [dp|] eqn:Hdp.
  - destruct (Z.ltb_spec (dist + 1) dp) as [Hlt|Hge].
    + (* the label of [p] improves *)
      assert (Hps : p <> start).
      { intros ->. rewrite B1 in Hdp. injection Hdp as <-. lia. }
      assert (Hpd : p ∉ done st).
      { intros Hpd. pose proof (Hdone _ _ Hpd Hdp). lia. }
      split; [|split; [|split; [|split; [|split; [|split]]]]]; try done.
      * split; rewrite ?Hl, ?Hq', ?Hd'.
        -- by rewrite lookup_insert_ne.
        -- intros q d. rewrite lookup_insert_Some.
           intros [[<- <-]|[_ Hq]]; [split; [lia|done]|eauto].
        -- intros q d. rewrite lookup_insert_Some.
           intros [[<- <-]|[_ Hq]]; [|eauto]. apply in_map_nodes. apply He.
        -- intros d q Hq. apply elem_of_cons in Hq as [[= -> ->]|Hq].
           ++ split; [lia|]. split; [done|]. exists (dist + 1).
              by rewrite lookup_insert_eq.
           ++ destruct (B4 _ _ Hq) as (H0 & Hw & d' & Hd'' & Hle).
              split; [done|]. split; [done|].
              destruct (decide (q = p)) as [->|Hne].
              ** exists (dist + 1). rewrite lookup_insert_eq. split; [done|].
                 rewrite Hdp in Hd''. injection Hd'' as <-. lia.
              ** exists d'. by rewrite lookup_insert_ne.
        -- intros q d. rewrite lookup_insert_Some.
           intros [[<- <-]|[Hne Hq]] Hnd Hex; [left|]. right. eauto.
        -- intros q Hq. destruct (decide (q = p)) as [->|Hne]; [done|].
           rewrite lookup_insert_ne by done. eauto.
        -- intros q d e Hq. rewrite lookup_insert_Some.
           intros [[<- <-]|[Hne Hdq]]; [done|].
           intros Hin. apply elem_of_cons in Hin as [->|Hin].
           ++ simpl. pose proof (Hdone _ _ Hq Hdq). lia.
           ++ eauto.
        -- intros q d q' Hq. rewrite lookup_insert_Some.
           intros [[<- <-]|[Hne Hdq]]; [done|]. intros Hedge.
           destruct (B8 _ _ _ Hq Hdq Hedge) as (d' & Hdq' & Hle).
           destruct (decide (q' = p)) as [->|Hne'].
           ++ exists (dist + 1). rewrite lookup_insert_eq. split; [done|].
              rewrite Hdp in Hdq'. injection Hdq' as <-. lia.
           ++ exists d'. by rewrite lookup_insert_ne.
      * rewrite Hl. by rewrite lookup_insert_ne.
      * rewrite Hq'. intros e Hin. apply elem_of_cons in Hin as [->|Hin];
          [simpl; lia|eauto].
      * rewrite Hl. exists (dist + 1). by rewrite lookup_insert_eq.
      * rewrite Hl. intros q d Hq. destruct (decide (q = p)) as [->|Hne].
        -- exists (dist + 1). rewrite lookup_insert_eq. split; [done|].
           rewrite Hdp in Hq. injection Hq as <-. lia.
        -- exists d. by rewrite lookup_insert_ne.
    + (* the label of [p] stays *)
      split; [|split; [|split; [|split; [|split; [|split]]]]]; try done.
      * split; rewrite ?Hl, ?Hq', ?Hd'; try done.
        -- intros d q Hq. apply elem_of_cons in Hq as [[= -> ->]|Hq]; [|eauto].
           split; [lia|]. split; [done|]. exists dp. split; [done|lia].
        -- intros q d Hq Hnd Hex. right. eauto.
        -- intros q d e Hq Hdq Hin. apply elem_of_cons in Hin as [->|Hin].
           ++ simpl. pose proof (Hdone _ _ Hq Hdq). lia.
           ++ eauto.
      * by rewrite Hl.
      * rewrite Hq'. intros e Hin. apply elem_of_cons in Hin as [->|Hin];
          [simpl; lia|eauto].
      * rewrite Hl. exists dp. split; [done|lia].
      * rewrite Hl. intros q d Hq. exists d. split; [done|lia].
  - (* [p] gets its first label *)
    assert (Hps : p <> start) by (intros ->; congruence).
    assert (Hpd : p ∉ done st).
    { intros Hpd. destruct (B6 _ Hpd). congruence. }
    split; [|split; [|split; [|split; [|split; [|split]]]]]; try done.
    * split; rewrite ?Hl, ?Hq', ?Hd'.
      -- by rewrite lookup_insert_ne.
      -- intros q d. rewrite lookup_insert_Some.
         intros [[<- <-]|[_ Hq]]; [split; [lia|done]|eauto].
      -- intros q d. rewrite lookup_insert_Some.
         intros [[<- <-]|[_ Hq]]; [|eauto]. apply in_map_nodes. apply He.
      -- intros d q Hq. apply elem_of_cons in Hq as [[= -> ->]|Hq].
         ++ split; [lia|]. split; [done|]. exists (dist + 1).
            by rewrite lookup_insert_eq.
         ++ destruct (B4 _ _ Hq) as (H0 & Hw & d' & Hd'' & Hle).
            split; [done|]. split; [done|].
            destruct (decide (q = p)) as [->|Hne]; [congruence|].
            exists d'. by rewrite lookup_insert_ne.
      -- intros q d. rewrite lookup_insert_Some.
         intros [[<- <-]|[Hne Hq]] Hnd Hex; [left|]. right. eauto.
      -- intros q Hq. destruct (decide (q = p)) as [->|Hne]; [done|].
         rewrite lookup_insert_ne by done. eauto.
      -- intros q d e Hq. rewrite lookup_insert_Some.
         intros [[<- <-]|[Hne Hdq]]; [done|].
         intros Hin. apply elem_of_cons in Hin as [->|Hin].
         ++ simpl. pose proof (Hdone _ _ Hq Hdq). lia.
         ++ eauto.
      -- intros q d q' Hq. rewrite lookup_insert_Some.
         intros [[<- <-]|[Hne Hdq]]; [done|]. intros Hedge.
         destruct (B8 _ _ _ Hq Hdq Hedge) as (d' & Hdq' & Hle).
         destruct (decide (q' = p)) as [->|Hne']; [congruence|].
         exists d'. by rewrite lookup_insert_ne.
    * rewrite Hl. by rewrite lookup_insert_ne.
    * rewrite Hq'. intros e Hin. apply elem_of_cons in Hin as [->|Hin];
        [simpl; lia|eauto].
    * rewrite Hl. exists (dist + 1). by rewrite lookup_insert_eq.
    * rewrite Hl. intros q d Hq. destruct (decide (q = p)) as [->|Hne]; [congruence|].
      exists d. by rewrite lookup_insert_ne.
Qed.

Lemma label_all_spec (m : Map) (start cur : pos) (dist : Z) (l : list pos)
    (st : Dijkstra) :
  bfs_inv m start (fun x => x = cur) st ->
  dists (metrics st) !! cur = Some dist -> 0 <= dist ->
  walk m (free m) start (Z.to_nat dist) cur ->
  (forall e, e ∈ bfs_q st -> dist <= e.1) ->
  (forall q d, q ∈ done st -> dists (metrics st) !! q = Some d -> d <= dist) ->
  (forall p, p ∈ l -> edge m (free m) cur p) ->
  let st' := foldl (label dist cur) st l in
  bfs_inv m start (fun x => x = cur) st' /\
  dists (metrics st') !! cur = Some dist /\
  (forall e, e ∈ bfs_q st' -> dist <= e.1) /\
  done st' = done st /\
  length (bfs_q st') = (length (bfs_q st) + length l)%nat /\
  (forall p, p ∈ l -> exists d', dists (metrics st') !! p = Some d' /\ d' <= dist + 1) /\
  (forall q d, dists (metrics st) !! q = Some d ->
     exists d', dists (metrics st') !! q = Some d' /\ d' <= d).
Proof.
  revert st. induction l as [|p l IH]; intros st Hinv Hcur Hdist Hwalk Hmin Hdone Hadj.
  - simpl. split; [done|]. split; [done|]. split; [done|]. split; [done|].
    split; [lia|]. split.
    + intros p Hp. by apply elem_of_nil in Hp.
    + intros q d Hq. exists d. split; [done|lia].
  - cbn [foldl].
    destruct (label_spec m start cur dist st p Hinv Hcur Hdist Hwalk Hmin Hdone)
      as (Hinv1 & Hcur1 & Hmin1 & Hdone1 & Hq1 & Hp1 & Hdec1); [apply Hadj; left|].
    specialize (IH (label dist cur st p) Hinv1 Hcur1 Hdist Hwalk Hmin1).
    destruct IH as (Hinv' & Hcur' & Hmin' & Hdone' & Hlen' & Hl' & Hdec').
    + intros q d Hq Hdq. rewrite Hdone1 in Hq.
      destruct (b_done_dom _ _ _ _ Hinv _ Hq) as [d0 Hd0].
      destruct (Hdec1 _ _ Hd0) as (d1 & Hd1 & Hle). rewrite Hdq in Hd1.
      injection Hd1 as <-. pose proof (Hdone _ _ Hq Hd0). lia.
    + intros q Hq. apply Hadj. by right.
    + split; [done|]. split; [done|]. split; [done|].
      split; [by rewrite Hdone'|]. split; [|split].
      * rewrite Hlen', Hq1. simpl. lia.
      * intros q Hq. apply elem_of_cons in Hq as [->|Hq]; [|by apply Hl'].
        destruct Hp1 as (d1 & Hd1 & Hle1).
        destruct (Hdec' _ _ Hd1) as (d2 & Hd2 & Hle2). exists d2. split; [done|lia].
      * intros q d Hq. destruct (Hdec1 _ _ Hq) as (d1 & Hd1 & Hle1).
        destruct (Hdec' _ _ Hd1) as (d2 & Hd2 & Hle2). exists d2. split; [done|lia].
Qed.

Lemma elem_of_adjacents_free (m : Map) (p q : pos) (f : pos -> bool) :
  q ∈ adjacents m p true None (Some f) true <->
  distance p q = 1 /\ is_in_map m q = true /\ f q = true /\ free m q = true.
Proof.
  unfold adjacents, _ring. rewrite !elem_of_sift, elem_of_ring_coords by lia.
  tauto.
Qed.

Lemma length_sift (pred : pos -> bool) (l : list pos) :
  (length (sift pred l) <= length l)%nat.
Proof. unfold sift. apply filter_length_le. Qed.

Lemma length_adjacents (m : Map) (p : pos) free_only fp :
  (length (adjacents m p free_only None fp true) <= 8)%nat.
Proof.
  unfold adjacents, _ring.
  assert (H8 : length (ring_coords p 1) = 8%nat).
  { destruct (length_ring_coords p 1) as [H|H]; [lia| |lia]. rewrite H. done. }
  pose proof (length_sift (is_in_map m) (ring_coords p 1)) as H1.
  destruct fp as [f|], free_only.
  - pose proof (length_sift f (sift (is_in_map m) (ring_coords p 1))).
    pose proof (length_sift (free m) (sift f (sift (is_in_map m) (ring_coords p 1)))).
    lia.
  - pose proof (length_sift f (sift (is_in_map m) (ring_coords p 1))). lia.
  - pose proof (length_sift (free m) (sift (is_in_map m) (ring_coords p 1))). lia.
  - lia.
Qed.

Lemma bfs_closed_walk (m : Map) (start : pos) (st : Dijkstra) :
  bfs_inv m start (fun _ => False) st -> bfs_q st = [] ->
  forall p k q, walk m (free m) p k q ->
    forall d, dists (metrics st) !! p = Some d ->
      exists d', dists (metrics st) !! q = Some d' /\ d' <= d + Z.of_nat k.
Proof.
  intros Hinv Hq p k q Hw.
  induction Hw as [p|p p' k q He Hw IH]; intros d Hd.
  - exists d. split; [done|lia].
  - assert (Hdone : p ∈ done st).
    { destruct (decide (p ∈ done st)) as [|Hnd]; [done|].
      pose proof (b_pending _ _ _ _ Hinv _ _ Hd Hnd (fun x => x)) as Hin.
      rewrite Hq in Hin. by apply elem_of_nil in Hin. }
    destruct (b_closed _ _ _ _ Hinv _ _ _ Hdone Hd He) as (d1 & Hd1 & Hle1).
    destruct (IH _ Hd1) as (d2 & Hd2 & Hle2). exists d2. split; [done|lia].
Qed.

Lemma metrics_loop_spec (m : Map) (start : pos) (fuel : nat) (st : Dijkstra) :
  bfs_inv m start (fun _ => False) st ->
  (length (bfs_q st) + 9 * base.size (nodes m start ∖ done st) < fuel)%nat ->
  exists mt, metrics_loop fuel m None None st = Some (Ok mt) /\
    forall p, shortest_label m start mt p.
Proof.
  revert st. induction fuel as [|fuel IH]; intros st Hinv Hfuel; [lia|].
  cbn [metrics_loop]. destruct (bfs_q st) as [|e0 q0] eqn:Hq.
  - simpl. exists (metrics st). split; [done|]. intros p. unfold shortest_label.
    destruct (dists (metrics st) !! p) as [d|] eqn:Hd.
    + destruct (b_sound _ _ _ _ Hinv _ _ Hd) as [H0 Hw].
      split; [done|]. split; [done|]. intros k Hk.
      destruct (bfs_closed_walk m start st Hinv Hq _ _ _ Hk 0
                  (b_start _ _ _ _ Hinv)) as (d' & Hd' & Hle).
      rewrite Hd in Hd'. injection Hd' as <-. lia.
    + intros k Hk.
      destruct (bfs_closed_walk m start st Hinv Hq _ _ _ Hk 0
                  (b_start _ _ _ _ Hinv)) as (d' & Hd' & Hle).
      congruence.
  - rewrite <- Hq in *. cbn [queue_bool negb].
    replace (queue_bool (bfs_q st)) with true by (by rewrite Hq). cbn [negb].
    destruct (pop_nonempty (bfs_q st)) as ([dist cur] & q' & Hpop);
      [by rewrite Hq|].
    rewrite Hpop. apply pop_spec in Hpop as [Hperm Hleast].
    assert (Hmem : forall e, e ∈ bfs_q st <-> e = (dist, cur) \/ e ∈ q').
    { intros e. rewrite Hperm. apply elem_of_cons. }
    assert (Hlen : length (bfs_q st) = S (length q')).
    { apply Permutation_length in Hperm. done. }
    rewrite (bool_decide_eq_false_2 (Some cur = None)) by done.
    rewrite (bool_decide_eq_false_2 (Some dist = None)) by done.
    rewrite orb_false_r. cbn [metrics bfs_q done].
    pose proof Hinv as [B1 B2 B3 B4 B5 B6 B7 B8].
    destruct (B4 dist cur) as (Hdist & Hwalk & dc & Hdc & Hle); [apply Hmem; by left|].
    destruct (decide (cur ∈ done st)) as [Hdone|Hnew].
    + rewrite bool_decide_eq_true_2 by done.
      apply IH; [|simpl; lia].
      split; simpl; try done.
      * intros d p Hp. apply B4. apply Hmem. by right.
      * intros p d Hp Hnd Hex. pose proof (B5 _ _ Hp Hnd Hex) as Hin.
        apply Hmem in Hin as [[= -> ->]|Hin]; done.
      * intros p d e Hp Hd He. apply (B7 p d e Hp Hd). apply Hmem. by right.
    + rewrite bool_decide_eq_false_2 by done.
      assert (Hdc' : dc = dist).
      { pose proof (B5 _ _ Hdc Hnew (fun x => x)) as Hin.
        specialize (Hleast _ Hin). simpl in Hleast. lia. }
      subst dc.
      set (st1 := mkDijkstra (metrics st) q' (done st)).
      set (adj := adjacents m cur true None
                    (Some (fun p => bool_decide (p ∉ done st))) true).
      assert (Hinv1 : bfs_inv m start (fun x => x = cur) st1).
      { split; simpl; try done.
        - intros d p Hp. apply B4. apply Hmem. by right.
        - intros p d Hp Hnd Hex. pose proof (B5 _ _ Hp Hnd (fun x => x)) as Hin.
          apply Hmem in Hin as [[= -> ->]|Hin]; done.
        - intros p d e Hp Hd He. apply (B7 p d e Hp Hd). apply Hmem. by right. }
      assert (Hadj : forall p, p ∈ adj -> edge m (free m) cur p /\ p ∉ done st).
      { intros p Hp. apply elem_of_adjacents_free in Hp as (Hd & Hin & Hnd & Hf).
        apply bool_decide_eq_true in Hnd. by repeat split. }
      destruct (label_all_spec m start cur dist adj st1 Hinv1 Hdc Hdist Hwalk)
        as (Hinv2 & Hcur2 & Hmin2 & Hdone2 & Hlen2 & Hl2 & Hdec2).
      { intros e He. apply Hleast. apply Hmem. by right. }
      { intros q d Hq' Hd. apply (B7 q d (dist, cur) Hq' Hd). apply Hmem. by left. }
      { intros p Hp. by apply Hadj. }
      fold st1. fold adj.
      set (st2 := foldl (label dist cur) st1 adj) in *.
      pose proof Hinv2 as [C1 C2 C3 C4 C5 C6 C7 C8].
      assert (Hd2 : done st2 = done st) by (by rewrite Hdone2).
      apply IH.
      * split; simpl; rewrite ?Hd2; try done.
        -- intros p d Hp Hnd Hex. apply C5; [done| |].
           ++ rewrite Hd2. intros Hd. apply Hnd.
              apply elem_of_union. by right.
           ++ intros ->. apply Hnd. apply elem_of_union. left.
              by apply elem_of_singleton.
        -- intros p Hp. apply elem_of_union in Hp as [Hp|Hp].
           ++ apply elem_of_singleton in Hp as ->. eauto.
           ++ apply C6. by rewrite Hd2.
        -- intros p d e Hp Hd He. apply elem_of_union in Hp as [Hp|Hp].
           ++ apply elem_of_singleton in Hp as ->. rewrite Hcur2 in Hd.
              injection Hd as <-. by apply Hmin2.
           ++ apply (C7 p d e); [by rewrite Hd2|done|done].
        -- intros p d q Hp Hd He. apply elem_of_union in Hp as [Hp|Hp].
           ++ apply elem_of_singleton in Hp as ->. rewrite Hcur2 in Hd.
              injection Hd as <-.
              destruct (decide (q ∈ done st)) as [Hqd|Hqn].
              ** destruct (B6 _ Hqd) as [dq Hdq].
                 destruct (Hdec2 _ _ Hdq) as (dq' & Hdq' & Hle').
                 exists dq'. split; [done|].
                 pose proof (B7 q dq (dist, cur) Hqd Hdq) as Hm.
                 simpl in Hm. specialize (Hm ltac:(apply Hmem; by left)). lia.
              ** apply Hl2. apply elem_of_adjacents_free.
                 destruct He as (Hd & Hin & Hf). repeat split; try done.
                 by apply bool_decide_eq_true_2.
           ++ apply (C8 p d q); [by rewrite Hd2|done|done].
      * simpl. rewrite Hlen2, Hd2. simpl.
        pose proof (length_adjacents m cur true
                      (Some (fun p => bool_decide (p ∉ done st)))) as H8.
        fold adj in H8.
        assert (Hsub : nodes m start ∖ ({[cur]} ∪ done st) ⊂ nodes m start ∖ done st).
        { assert (cur ∈ nodes m start) by (eapply B3; eauto). set_solver. }
        apply subset_size in Hsub. lia.
Qed.

Lemma bfs_inv_init (m : Map) (start : pos) :
  bfs_inv m start (fun _ => False)
    (mkDijkstra (metrics_init start) (push [] (0, start)) ∅).
Proof.
  split; simpl.
  - apply lookup_singleton_eq.
  - intros p d Hd. apply lookup_singleton_Some in Hd as [<- <-].
    split; [lia|constructor].
  - intros p d Hd. apply lookup_singleton_Some in Hd as [<- _]. apply start_nodes.
  - intros d p Hp. apply list_elem_of_singleton in Hp as [= -> ->].
    split; [lia|]. split; [constructor|]. exists 0.
    rewrite lookup_singleton_eq. split; [done|lia].
  - intros p d Hd _ _. apply lookup_singleton_Some in Hd as [<- <-]. left.
  - intros p Hp. by apply not_elem_of_empty in Hp.
  - intros p d e Hp. by apply not_elem_of_empty in Hp.
  - intros p d q Hp. by apply not_elem_of_empty in Hp.
Qed.

Lemma dist_metrics_spec (m : Map) (start : pos) :
  exists mt, dist_metrics m start None None = Some (Ok mt) /\
    forall p, shortest_label m start mt p.
Proof.
  unfold dist_metrics. apply metrics_loop_spec; [apply bfs_inv_init|].
  unfold metrics_fuel. simpl.
  assert (base.size (nodes m start ∖ ∅) <= base.size (nodes m start))%nat; [|lia].
  apply subseteq_size. set_solver.
Qed.

(** C8: when no walk leads from [start] to [goal] over free tiles (the
    goal itself need not be free, but must then be next to a tile that the
    search reaches), [Map.path(start, goal)] returns [None]: the search
    ends, and nothing is raised on the way. *)
Theorem path_unreachable (m : Map) (start goal : pos) :
  (forall k, ~ walk m (passable m goal) start k goal) ->
  path m start goal = Some (Ok None).
Proof.
  intros Hno. destruct (path_spec m start goal) as ([steps|] & Hpath & Hout).
  - exfalso. destruct Hout as (j & _ & Hw & _). by apply (Hno j).
  - done.
Qed.

Lemma path_unreachable_witness :
  path walled_off (0, 0) (2, 0) = Some (Ok None).
Proof.
  apply (path_unreachable walled_off (0, 0) (2, 0)).
  destruct (path_spec walled_off (0, 0) (2, 0)) as (r & Hpath & Hout).
  vm_compute in Hpath. injection Hpath as <-. exact Hout.
Defined.

(** C1: when [goal] is free and a walk over free tiles leads from [start]
    to it, [Map.path(start, goal)] returns a list of positions whose
    length minus one is the distance that [Map.dist_metrics(start)] (with
    no [dest] and no [max_dist]) records for [goal]. *)
Theorem path_length_is_distance (m : Map) (start goal : pos) (k : nat) :
  free m goal = true -> walk m (free m) start k goal ->
  exists steps mt d,
    path m start goal = Some (Ok (Some steps)) /\
    dist_metrics m start None None = Some (Ok mt) /\
    dists mt !! goal = Some d /\
    Z.of_nat (length steps) - 1 = d.
Proof.
  intros Hfree Hwalk.
  assert (Hext : forall x, free m x = passable m goal x).
  { intros x. unfold passable. destruct (free m x) eqn:Hx; [done|].
    simpl. symmetry. apply bool_decide_eq_false. intros ->. congruence. }
  destruct (path_spec m start goal) as (r & Hpath & Hout).
  destruct (dist_metrics_spec m start) as (mt & Hmt & Hlab).
  specialize (Hlab goal). unfold shortest_label in Hlab.
  destruct (dists mt !! goal) as [d|] eqn:Hd; [|by destruct (Hlab k)].
  destruct Hlab as (Hd0 & Hwd & Hdmin).
  destruct r as [steps|].
  - destruct Hout as (j & Hlen & Hwj & Hjmin).
    exists steps, mt, d. split; [done|]. split; [done|]. split; [done|].
    assert (Hj1 : d <= Z.of_nat j).
    { apply Hdmin. eapply walk_ext; [|exact Hwj]. intros x. by rewrite Hext. }
    assert (Hj2 : (j <= Z.to_nat d)%nat).
    { apply Hjmin. eapply walk_ext; [|exact Hwd]. done. }
    lia.
  - exfalso. apply (Hout k). eapply walk_ext; [|exact Hwalk]. done.
Qed.

Lemma path_length_is_distance_witness :
  exists steps mt d,
    path bend (0, 0) (0, 2) = Some (Ok (Some steps)) /\
    dist_metrics bend (0, 0) None None = Some (Ok mt) /\
    dists mt !! (0, 2) = Some d /\
    Z.of_nat (length steps) - 1 = d.
Proof.
  apply (path_length_is_distance bend (0, 0) (0, 2) 4); [reflexivity|].
  apply walk_step with (1, 0); [repeat split; reflexivity|].
  apply walk_step with (2, 1); [repeat split; reflexivity|].
  apply walk_step with (1, 2); [repeat split; reflexivity|].
  apply walk_step with (0, 2); [repeat split; reflexivity|].
  apply walk_here.
Defined.

(** ** Maze generation: the recursive backtracker *)

Example fill_3x3_from_corner :
  match fill (H := rng_starting_at (0, 0)) (rock 3 3) ((0, 0), (2, 2)) 0 with
  | Some (Ok st) =>
      bt_calls st = [(0, 0); (0, 2); (2, 2); (2, 0)] /\
      tile_at (bt_map st) (1, 1) = Terrain SOLID_ROCK /\
      tile_at (bt_map st) (2, 1) = Terrain FLOOR
  | _ => False
  end.
Proof. vm_compute. repeat split; reflexivity. Qed.

(** *** Correctness of the recursive backtracker *)

Lemma is_in_rect_spec (p : pos) (r : pos * pos) :
  is_in_rect p r = true <->
  r.1.1 <= p.1 <= r.2.1 /\ r.1.2 <= p.2 <= r.2.2.
Proof.
  destruct r as [[x1 y1] [x2 y2]]. unfold is_in_rect. simpl.
  rewrite !andb_true_iff, !Z.leb_le. lia.
Qed.

Lemma in_rect_coords (p : pos) (r : pos * pos) :
  is_in_rect p r = true -> p ∈ rect_coords r.
Proof.
  intros Hin. apply is_in_rect_spec in Hin.
  destruct r as [[x1 y1] [x2 y2]], p as [x y]. simpl in Hin.
  unfold rect_coords. apply list_elem_of_bind. exists x. split.
  - apply list_elem_of_bind. exists y. split; [left|].
    unfold range. apply elem_of_seqZ. lia.
  - unfold range. apply elem_of_seqZ. lia.
Qed.

Lemma in_rect_in_map (m : Map) (r : pos * pos) (p : pos) :
  rect_inside m r -> is_in_rect p r = true -> is_in_map m p = true.
Proof.
  intros (H1 & H2 & H3 & H4) Hin. apply is_in_rect_spec in Hin.
  destruct p as [x y]. unfold is_in_map, size. simpl in *.
  rewrite !andb_true_iff, !Z.leb_le, !Z.ltb_lt. lia.
Qed.

Lemma setitem_floor (m : Map) (p : pos) :
  is_in_map m p = true ->
  exists m', setitem m p (Terrain FLOOR) = Ok m' /\
    arr_width (tiles m') = arr_width (tiles m) /\
    arr_height (tiles m') = arr_height (tiles m) /\
    floor_at m' p /\
    (forall q, floor_at m q -> floor_at m' q) /\
    (forall q, q <> p -> tile_at m' q = tile_at m q).
Proof.
  destruct p as [x y]. unfold is_in_map, size, setitem, arr_set, in_range.
  intros ->. cbn [mbind result_bind]. eexists. split; [reflexivity|].
  unfold floor_at, tile_at. simpl. split; [done|]. split; [done|].
  split; [by rewrite !Z.eqb_refl|]. split.
  - intros [qx qy] Hq. simpl in *.
    destruct ((qx =? x) && (qy =? y)); done.
  - intros [qx qy] Hne. simpl.
    destruct (Z.eqb_spec qx x) as [->|]; [|done].
    destruct (Z.eqb_spec qy y) as [->|]; done.
Qed.

Lemma elem_of_neighbors (r : pos * pos) (c c' : pos) :
  c' ∈ neighbors r c <->
  is_in_rect c' r = true /\
  (c' = (c.1 + 2, c.2) \/ c' = (c.1 - 2, c.2) \/
   c' = (c.1, c.2 + 2) \/ c' = (c.1, c.2 - 2)).
Proof.
  unfold neighbors. rewrite list_elem_of_In, filter_In, <- list_elem_of_In.
  unfold neighbor_offsets, vect_add. simpl.
  rewrite !elem_of_cons, elem_of_nil.
  replace (2 + c.1) with (c.1 + 2) by lia.
  replace (-2 + c.1) with (c.1 - 2) by lia.
  replace (0 + c.1) with c.1 by lia. replace (0 + c.2) with c.2 by lia.
  replace (2 + c.2) with (c.2 + 2) by lia.
  replace (-2 + c.2) with (c.2 - 2) by lia.
  tauto.
Qed.

Lemma lattice_neighbor (r : pos * pos) (start c c' : pos) :
  lattice start c -> c' ∈ neighbors r c -> lattice start c'.
Proof.
  intros (i & j & ->) Hn. apply elem_of_neighbors in Hn as [_ Hn]. simpl in Hn.
  destruct Hn as [->|[->|[->| ->]]].
  - exists (i + 1), j. f_equal; lia.
  - exists (i - 1), j. f_equal; lia.
  - exists i, (j + 1). f_equal; lia.
  - exists i, (j - 1). f_equal; lia.
Qed.

Lemma mid_point_in_rect (r : pos * pos) (c c' : pos) :
  is_in_rect c r = true -> is_in_rect c' r = true ->
  is_in_rect (mid_point c c') r = true.
Proof.
  rewrite !is_in_rect_spec. unfold mid_point. simpl. intros H1 H2.
  pose proof (Z.div_mod (c.1 + c'.1) 2 ltac:(lia)).
  pose proof (Z.mod_pos_bound (c.1 + c'.1) 2 ltac:(lia)).
  pose proof (Z.div_mod (c.2 + c'.2) 2 ltac:(lia)).
  pose proof (Z.mod_pos_bound (c.2 + c'.2) 2 ltac:(lia)).
  lia.
Qed.

Lemma size_unvisited_lt (r : pos * pos) (c : pos) (vis : gset pos) :
  is_in_rect c r = true -> c ∉ vis ->
  (base.size (cells_of r ∖ ({[c]} ∪ vis)) < base.size (cells_of r ∖ vis))%nat.
Proof.
  intros Hin Hc. apply subset_size.
  assert (c ∈ cells_of r).
  { unfold cells_of. apply elem_of_list_to_set. by apply in_rect_coords. }
  set_solver.
Qed.

Lemma size_unvisited_mono (r : pos * pos) (vis vis' : gset pos) :
  vis ⊆ vis' ->
  (base.size (cells_of r ∖ vis') <= base.size (cells_of r ∖ vis))%nat.
Proof. intros Hsub. apply subseteq_size. set_solver. Qed.

Lemma fill_loop_spec `{RandomSource} (f : nat) (start : pos) (r : pos * pos) :
  (forall coord st, rect_inside (bt_map st) r -> is_in_rect coord r = true ->
     lattice start coord ->
     (base.size (cells_of r ∖ ({[coord]} ∪ visited st)) < f)%nat ->
     cell_post f start r coord st) ->
  forall coord next_options st,
    rect_inside (bt_map st) r -> is_in_rect coord r = true ->
    lattice start coord ->
    (forall o, o ∈ next_options -> o ∈ neighbors r coord) ->
    (base.size (cells_of r ∖ visited st) <= f)%nat ->
    exists st' cs,
      fill_loop (fill_cell f r) coord next_options st = Some (Ok st') /\
      carved start r st st' cs /\
      (forall o, o ∈ next_options -> o ∈ visited st').
Proof.
  intros IH coord next_options.
  induction next_options as [|next rest IHl]; intros st Hins Hcoord Hlat Hopts Hfuel.
  - exists st, []. split; [done|]. split.
    + split; try done.
      * intros c. rewrite elem_of_nil. tauto.
      * intros c Hc. by apply elem_of_nil in Hc.
      * constructor.
      * by rewrite app_nil_r.
      * intros c Hc. by apply elem_of_nil in Hc.
      * intros c c' Hc. by apply elem_of_nil in Hc.
      * intros c Hc. by apply elem_of_nil in Hc.
    + intros o Ho. by apply elem_of_nil in Ho.
  - cbn [fill_loop].
    assert (Hrest : forall o, o ∈ rest -> o ∈ neighbors r coord).
    { intros o Ho. apply Hopts. by right. }
    destruct (decide (next ∈ visited st)) as [Hvis|Hnew].
    + destruct (IHl st Hins Hcoord Hlat Hrest Hfuel) as (st' & cs & Hrun & Hcv & Hall).
      exists st', cs. split; [done|]. split; [done|].
      intros o Ho. apply elem_of_cons in Ho as [->|Ho]; [|by apply Hall].
      apply (cv_visited _ _ _ _ _ Hcv). by left.
    + assert (Hnext : next ∈ neighbors r coord) by (apply Hopts; left).
      pose proof (lattice_neighbor _ _ _ _ Hlat Hnext) as Hlatn.
      apply elem_of_neighbors in Hnext as [Hnin _].
      destruct (setitem_floor (bt_map st) (mid_point coord next))
        as (m1 & Hset & Hw1 & Hh1 & _ & Hkept1 & _).
      { eapply in_rect_in_map; [done|]. by apply mid_point_in_rect. }
      rewrite Hset.
      set (st1 := mkBacktracker m1 (visited st) (bt_draws st) (bt_calls st)).
      assert (Hins1 : rect_inside (bt_map st1) r).
      { unfold rect_inside in *. simpl. rewrite Hw1, Hh1. done. }
      destruct (IH next st1 Hins1 Hnin Hlatn)
        as (m2 & st2 & cs2 & Hset2 & Hfl2 & Hrun2 & Hcv2 & Hcl2).
      { simpl. pose proof (size_unvisited_lt r next (visited st) Hnin Hnew). lia. }
      rewrite Hrun2.
      pose proof Hcv2 as [V1 V2 V3 V4 V5 V6 V7 V8 V9]. simpl in V1, V2, V4, V8.
      destruct (IHl st2 V9 Hcoord Hlat Hrest) as (st' & cs3 & Hrun3 & Hcv3 & Hall3).
      { etrans; [|exact Hfuel]. apply size_unvisited_mono.
        intros c Hc. apply V1. left. apply elem_of_union. by right. }
      pose proof Hcv3 as [W1 W2 W3 W4 W5 W6 W7 W8 W9].
      exists st', (next :: cs2 ++ cs3). split; [done|]. split.
      * split.
        -- intros c. rewrite W1, V1, elem_of_union, elem_of_singleton,
             elem_of_cons, elem_of_app. tauto.
        -- intros c Hc. apply elem_of_cons in Hc as [->|Hc]; [done|].
           apply elem_of_app in Hc as [Hc|Hc].
           ++ intros Hv. apply (V2 _ Hc). apply elem_of_union. by right.
           ++ intros Hv. apply (W2 _ Hc). apply V1. left.
              apply elem_of_union. by right.
        -- apply NoDup_cons. split.
           ++ intros Hc. apply elem_of_app in Hc as [Hc|Hc].
              ** apply (V2 _ Hc). apply elem_of_union. left.
                 by apply elem_of_singleton.
              ** apply (W2 _ Hc). apply V1. left. apply elem_of_union. left.
                 by apply elem_of_singleton.
           ++ apply NoDup_app. split; [done|]. split; [|done].
              intros c Hc Hc'. apply (W2 _ Hc'). apply V1. by right.
        -- rewrite W4, V4. by rewrite <- !app_assoc.
        -- intros c Hc. apply elem_of_cons in Hc as [->|Hc]; [done|].
           apply elem_of_app in Hc as [Hc|Hc]; [by apply V5|by apply W5].
        -- intros c c' Hc Hc'. apply elem_of_cons in Hc as [->|Hc].
           ++ apply W1. left. by apply Hcl2.
           ++ apply elem_of_app in Hc as [Hc|Hc].
              ** apply W1. left. by apply (V6 c c').
              ** by apply (W6 c c').
        -- intros c Hc. apply elem_of_cons in Hc as [->|Hc].
           ++ apply W8. apply V8. done.
           ++ apply elem_of_app in Hc as [Hc|Hc]; [apply W8; by apply V7|by apply W7].
        -- intros p Hp. apply W8. apply V8. simpl.
           destruct (setitem_floor m1 next) as (m2' & Hset2' & _ & _ & _ & Hk & _).
           { eapply in_rect_in_map; [exact Hins1|done]. }
           simpl in Hset2. rewrite Hset2 in Hset2'. injection Hset2' as <-.
           apply Hk. by apply Hkept1.
        -- done.
      * intros o Ho. apply elem_of_cons in Ho as [->|Ho]; [|by apply Hall3].
        apply W1. left. apply V1. left. apply elem_of_union. left.
        by apply elem_of_singleton.
Qed.

Lemma fill_cell_spec `{RandomSource} (fuel : nat) (start : pos) (r : pos * pos) :
  forall coord st, rect_inside (bt_map st) r -> is_in_rect coord r = true ->
    lattice start coord ->
    (base.size (cells_of r ∖ ({[coord]} ∪ visited st)) < fuel)%nat ->
    cell_post fuel start r coord st.
Proof.
  induction fuel as [|f IH]; intros coord st Hins Hcoord Hlat Hfuel; [lia|].
  unfold cell_post. cbn [fill_cell].
  destruct (setitem_floor (bt_map st) coord)
    as (m1 & Hset & Hw1 & Hh1 & Hfl1 & Hkept1 & _).
  { by eapply in_rect_in_map. }
  rewrite Hset.
  set (opts := reverse
         (rng_shuffle (bt_draws st)
            (List.filter (fun cell => bool_decide (cell ∉ {[coord]} ∪ visited st))
               (neighbors r coord)))).
  assert (Hopts : forall o, o ∈ opts <->
            o ∈ neighbors r coord /\ o ∉ {[coord]} ∪ visited st).
  { intros o. unfold opts. rewrite elem_of_reverse, rng_shuffle_spec.
    rewrite list_elem_of_In, filter_In, <- list_elem_of_In.
    by rewrite bool_decide_eq_true. }
  destruct (fill_loop_spec f start r IH coord opts (entered m1 coord st))
    as (st' & cs & Hrun & Hcv & Hall).
  - unfold rect_inside in *. simpl. by rewrite Hw1, Hh1.
  - done.
  - done.
  - intros o Ho. by apply Hopts.
  - simpl. lia.
  - exists m1, st', cs. split; [done|]. split; [done|]. split; [exact Hrun|].
    split; [done|]. intros c' Hc'.
    destruct (decide (c' ∈ {[coord]} ∪ visited st)) as [Hv|Hnv].
    + apply (cv_visited _ _ _ _ _ Hcv). by left.
    + apply Hall. by apply Hopts.
Qed.

Lemma size_list_to_set_le (l : list pos) :
  (base.size (list_to_set l : gset pos) <= length l)%nat.
Proof.
  induction l as [|x l IH].
  - rewrite list_to_set_nil, size_empty. simpl. lia.
  - rewrite list_to_set_cons. pose proof (size_add_open x (list_to_set l)).
    simpl. lia.
Qed.

(** Every cell of the rectangle that is a whole number of two-tile steps
    away from a visited cell is visited, when the visited cells are closed
    under stepping to a neighbour. *)
Lemma closed_lattice (r : pos * pos) (start : pos) (vis : gset pos) :
  start ∈ vis -> is_in_rect start r = true ->
  (forall c c', c ∈ vis -> c' ∈ neighbors r c -> c' ∈ vis) ->
  forall c, is_in_rect c r = true -> lattice start c -> c ∈ vis.
Proof.
  intros Hstart Hsin Hclosed c Hin (i & j & ->).
  assert (Hgen : forall (k : nat) i j, Z.abs i + Z.abs j <= Z.of_nat k ->
            is_in_rect (start.1 + 2 * i, start.2 + 2 * j) r = true ->
            (start.1 + 2 * i, start.2 + 2 * j) ∈ vis).
  { clear i j Hin. induction k as [|k IH]; intros i j Hk Hin.
    - assert (i = 0) as -> by lia. assert (j = 0) as -> by lia.
      replace (start.1 + 2 * 0, start.2 + 2 * 0) with start; [done|].
      destruct start. simpl. f_equal; lia.
    - apply is_in_rect_spec in Hsin as Hs. apply is_in_rect_spec in Hin as Hc.
      simpl in Hc.
      destruct (Z.lt_trichotomy i 0) as [Hi|[->|Hi]].
      + apply (Hclosed (start.1 + 2 * (i + 1), start.2 + 2 * j)).
        * apply IH; [lia|]. apply is_in_rect_spec. simpl. lia.
        * apply elem_of_neighbors. split; [done|]. simpl. right. left. f_equal; lia.
      + destruct (Z.lt_trichotomy j 0) as [Hj|[->|Hj]].
        * apply (Hclosed (start.1 + 2 * 0, start.2 + 2 * (j + 1))).
          -- apply IH; [lia|]. apply is_in_rect_spec. simpl. lia.
          -- apply elem_of_neighbors. split; [done|]. simpl.
             right. right. right. f_equal; lia.
        * apply IH; [lia|done].
        * apply (Hclosed (start.1 + 2 * 0, start.2 + 2 * (j - 1))).
          -- apply IH; [lia|]. apply is_in_rect_spec. simpl. lia.
          -- apply elem_of_neighbors. split; [done|]. simpl.
             right. right. left. f_equal; lia.
      + apply (Hclosed (start.1 + 2 * (i - 1), start.2 + 2 * j)).
        * apply IH; [lia|]. apply is_in_rect_spec. simpl. lia.
        * apply elem_of_neighbors. split; [done|]. simpl. left. f_equal; lia. }
  apply (Hgen (Z.to_nat (Z.abs i + Z.abs j))); [lia|done].
Qed.

(** [RecursiveBacktracker.fill()] on a rectangle inside the map ends
    without raising.  It enters [fill(coord)] exactly once for each cell
    of the rectangle that is a whole number of two-tile steps away from
    the start that was drawn, and for no other position; these cells are
    floor afterwards. *)
Lemma fill_spec `{RandomSource} (m : Map) (r : pos * pos) (n : nat) :
  rect_inside m r -> r.1.1 <= r.2.1 -> r.1.2 <= r.2.2 ->
  let start := rng_pos_in_rect n r in
  exists st,
    fill m r n = Some (Ok st) /\
    is_in_rect start r = true /\
    NoDup (bt_calls st) /\
    (forall c, c ∈ bt_calls st <-> c ∈ visited st) /\
    (forall c, c ∈ visited st <-> is_in_rect c r = true /\ lattice start c) /\
    (forall c, c ∈ visited st -> floor_at (bt_map st) c).
Proof.
  intros Hins Hx Hy start.
  assert (Hsin : is_in_rect start r = true).
  { apply is_in_rect_spec. apply rng_pos_in_rect_spec; done. }
  assert (Hlat0 : lattice start start).
  { exists 0, 0. destruct start. simpl. f_equal; lia. }
  unfold fill. fold start.
  destruct (setitem_floor m start) as (m0 & Hset0 & Hw0 & Hh0 & Hfl0 & Hk0 & _).
  { by eapply in_rect_in_map. }
  rewrite Hset0.
  set (st0 := mkBacktracker m0 {[start]} (S n) []).
  destruct (fill_cell_spec (S (length (rect_coords r))) start r start st0)
    as (m1 & st & cs & Hset1 & Hfl1 & Hrun & Hcv & Hcl).
  - unfold rect_inside in *. simpl. by rewrite Hw0, Hh0.
  - done.
  - done.
  - simpl.
    assert (base.size (cells_of r ∖ ({[start]} ∪ {[start]}))
            <= base.size (cells_of r))%nat by (apply subseteq_size; set_solver).
    pose proof (size_list_to_set_le (rect_coords r)). unfold cells_of in *. lia.
  - exists st. split; [exact Hrun|]. split; [done|].
    pose proof Hcv as [V1 V2 V3 V4 V5 V6 V7 V8 V9]. simpl in V1, V2, V4, V8.
    assert (Hvis : forall c, c ∈ visited st <-> c = start \/ c ∈ cs).
    { intros c. rewrite V1, elem_of_union, elem_of_singleton. tauto. }
    assert (Hsc : start ∉ cs).
    { intros Hc. apply (V2 _ Hc). apply elem_of_union. left.
      by apply elem_of_singleton. }
    split; [|split; [|split]].
    + rewrite V4. simpl. by apply NoDup_cons.
    + intros c. rewrite V4, Hvis. simpl. apply elem_of_cons.
    + intros c. split.
      * intros Hc. apply Hvis in Hc as [->|Hc]; [done|by apply V5].
      * intros [Hin Hlat].
        apply (closed_lattice r start (visited st)); try done.
        -- apply Hvis. by left.
        -- intros c0 c' Hc0 Hc'. apply Hvis in Hc0 as [->|Hc0];
             [by apply Hcl|by apply (V6 c0 c')].
    + intros c Hc. apply Hvis in Hc as [->|Hc]; [|by apply V7].
      apply V8. done.
Qed.

Lemma lattice_trans (a b c : pos) : lattice a b -> lattice b c -> lattice a c.
Proof.
  intros (i & j & ->) (i' & j' & ->). exists (i + i'), (j + j').
  simpl. f_equal; lia.
Qed.

Lemma lattice_sym (a b : pos) : lattice a b -> lattice b a.
Proof.
  intros (i & j & ->). exists (- i), (- j). destruct a. simpl. f_equal; lia.
Qed.

Lemma NoDup_list_prod {A B : Type} (l : list A) (k : list B) :
  NoDup l -> NoDup k -> NoDup (list_prod l k).
Proof.
  intros Hl Hk. induction Hl as [|a l Ha Hl IH]; simpl; [constructor|].
  apply NoDup_app. split; [|split; [|done]].
  - clear IH. induction Hk as [|b k Hb Hk IHk]; simpl; [constructor|].
    apply NoDup_cons. split; [|done]. intros Hin.
    apply list_elem_of_In, in_map_iff in Hin as (b0 & [= <-] & Hin).
    apply Hb. by apply list_elem_of_In.
  - intros [a' b'] H1 H2. apply list_elem_of_In in H1, H2.
    apply in_map_iff in H1 as (b0 & [= <- <-] & _).
    apply in_prod_iff in H2 as [H2 _]. apply Ha. by apply list_elem_of_In.
Qed.

(** The number of fillable cells of a rectangle is [nb_cells]. *)
Lemma size_fillable (r : pos * pos) (cells : gset pos) :
  r.1.1 <= r.2.1 -> r.1.2 <= r.2.2 ->
  (forall c, c ∈ cells <-> fillable r c) ->
  Z.of_nat (base.size cells) = nb_cells r.
Proof.
  destruct r as [[x1 y1] [x2 y2]]. simpl. intros Hx Hy Hcells.
  unfold nb_cells.
  set (w := (x2 - x1 + 1) / 2 + (x2 - x1 + 1) mod 2).
  set (h := (y2 - y1 + 1) / 2 + (y2 - y1 + 1) mod 2).
  pose proof (Z.div_mod (x2 - x1 + 1) 2 ltac:(lia)) as Hdx.
  pose proof (Z.mod_pos_bound (x2 - x1 + 1) 2 ltac:(lia)) as Hmx.
  pose proof (Z.div_mod (y2 - y1 + 1) 2 ltac:(lia)) as Hdy.
  pose proof (Z.mod_pos_bound (y2 - y1 + 1) 2 ltac:(lia)) as Hmy.
  set (xs := (fun i => x1 + 2 * i) <$> seqZ 0 w).
  set (ys := (fun j => y1 + 2 * j) <$> seqZ 0 h).
  assert (Hxs : forall x, x ∈ xs <-> exists i, x = x1 + 2 * i /\ x1 <= x <= x2).
  { intros x. unfold xs. rewrite list_elem_of_fmap. split.
    - intros (i & -> & Hi). apply elem_of_seqZ in Hi. exists i. subst w. lia.
    - intros (i & -> & Hi). exists i. split; [done|]. apply elem_of_seqZ.
      subst w. lia. }
  assert (Hys : forall y, y ∈ ys <-> exists j, y = y1 + 2 * j /\ y1 <= y <= y2).
  { intros y. unfold ys. rewrite list_elem_of_fmap. split.
    - intros (j & -> & Hj). apply elem_of_seqZ in Hj. exists j. subst h. lia.
    - intros (j & -> & Hj). exists j. split; [done|]. apply elem_of_seqZ.
      subst h. lia. }
  assert (Heq : cells = list_to_set (list_prod xs ys)).
  { apply set_eq. intros [x y]. rewrite Hcells, elem_of_list_to_set.
    rewrite list_elem_of_In, in_prod_iff, <- !list_elem_of_In, Hxs, Hys.
    unfold fillable, lattice. rewrite is_in_rect_spec. simpl. split.
    - intros [Hin (i & j & [= -> ->])]. split; [exists i|exists j]; lia.
    - intros [(i & -> & Hi) (j & -> & Hj)]. split; [lia|]. by exists i, j. }
  rewrite Heq, size_list_to_set.
  - rewrite length_prod. unfold xs, ys. rewrite !length_fmap, !length_seqZ.
    subst w h. lia.
  - apply NoDup_list_prod.
    + apply NoDup_fmap_2; [intros ???; lia|apply NoDup_seqZ].
    + apply NoDup_fmap_2; [intros ???; lia|apply NoDup_seqZ].
Qed.

(** When the start that is drawn sits at an even offset from the
    bottom-left corner of the rectangle, [fill()] visits the fillable
    cells, each exactly once, and makes them floor; they are [nb_cells]
    in number. *)
Lemma fill_aligned `{RandomSource} (m : Map) (r : pos * pos) (n : nat) :
  rect_inside m r -> r.1.1 <= r.2.1 -> r.1.2 <= r.2.2 ->
  lattice r.1 (rng_pos_in_rect n r) ->
  exists st,
    fill m r n = Some (Ok st) /\
    NoDup (bt_calls st) /\
    (forall c, c ∈ bt_calls st <-> fillable r c) /\
    (forall c, fillable r c -> floor_at (bt_map st) c) /\
    Z.of_nat (length (bt_calls st)) = nb_cells r.
Proof.
  intros Hins Hx Hy Hal.
  destruct (fill_spec m r n Hins Hx Hy) as (st & Hrun & Hsin & Hnd & Hcalls & Hvis & Hfl).
  assert (Hfill : forall c, c ∈ visited st <-> fillable r c).
  { intros c. rewrite Hvis. unfold fillable. split; intros [Hin Hlat].
    - split; [done|]. by eapply lattice_trans.
    - split; [done|]. eapply lattice_trans; [|exact Hlat]. by apply lattice_sym. }
  exists st. split; [done|]. split; [done|]. split; [|split].
  - intros c. by rewrite Hcalls.
  - intros c Hc. apply Hfl. by apply Hfill.
  - rewrite <- (size_fillable r (visited st) Hx Hy Hfill).
    f_equal. rewrite <- (size_list_to_set (C := gset pos) (bt_calls st) Hnd).
    f_equal. apply set_eq. intros c. by rewrite elem_of_list_to_set, Hcalls.
Qed.

(** C7: on the square [(0,0)-(2,2)] of a map of solid rock, when the
    start that is drawn is the middle tile [(1,1)], [fill()] enters one
    cell only.  None of the four cells that [nb_cells] counts is visited:
    they are left as solid rock. *)
Theorem fill_unaligned_start :
  let r := ((0, 0), (2, 2)) in
  nb_cells r = 4 /\
  is_in_rect (1, 1) r = true /\
  match fill (H := rng_starting_at (1, 1)) (rock 3 3) r 0 with
  | Some (Ok st) =>
      bt_calls st = [(1, 1)] /\
      visited st = {[(1, 1)]} /\
      forall c, c ∈ [(0, 0); (2, 0); (0, 2); (2, 2)] ->
        (c ∉ visited st) /\ tile_at (bt_map st) c = Terrain SOLID_ROCK
  | _ => False
  end.
Proof.
  split; [reflexivity|]. split; [reflexivity|].
  assert (Hrun : fill (H := rng_starting_at (1, 1)) (rock 3 3) ((0, 0), (2, 2)) 0
          = Some (Ok (mkBacktracker
              (set_tiles (rock 3 3)
                 (mkArray 3 3 (fun x y => if (x =? 1) && (y =? 1) then Terrain FLOOR
                                          else if (x =? 1) && (y =? 1) then Terrain FLOOR
                                          else Terrain SOLID_ROCK)))
              ({[(1, 1)]} ∪ {[(1, 1)]}) 2 [(1, 1)]))).
  { reflexivity. }
  rewrite Hrun. split; [done|]. split; [set_solver|].
  intros c Hc. split.
  - cbn [visited]. intros Hv.
    assert (c = (1, 1)) as -> by set_solver.
    repeat (apply elem_of_cons in Hc as [Hc|Hc]; [discriminate Hc|]).
    by apply elem_of_nil in Hc.
  - repeat (apply elem_of_cons in Hc as [->|Hc]; [reflexivity|]).
    by apply elem_of_nil in Hc.
Qed.
